(** * arangodag: a DAG kept in an ArangoDB database

    A shallow embedding of [dag.go].  The Go code is a thin client: every
    operation is a short sequence of driver calls (document reads, document
    creation, AQL queries read through a cursor) followed by a decision on
    what came back.  The embedding keeps that shape:

    - the database content is a [Store] (the two collections of the DAG);
    - every driver call may fail for reasons outside the program, which a
      fault schedule in the [World] decides;
    - the operations of [dag.go] are written in a state-and-error monad over
      the [World], one [driver_call] per call of the Go driver;
    - the AQL queries the code sends are a datatype [Query], and the
      database engine that answers them is [eval_query]. *)

From Stdlib Require Import List String Ascii Bool Arith Lia.
From Stdlib Require Import DecimalString DecimalNat Permutation.
Import ListNotations.
Local Open Scope string_scope.
Local Open Scope list_scope.

Set Implicit Arguments.

(** ** Errors *)

(** [error] values the program can return: the two it gets from the driver
    and those it builds with [errors.New]. *)
Inductive error : Type :=
| NotFound
| StoreFailure
| ErrorsNew (msg : string).

(** The three errors [AddEdge] builds, under the names the specification
    gives them. *)
Definition DuplicateEdge : error := ErrorsNew "duplicate edge".
Definition SelfLoop : error := ErrorsNew "self loop".
Definition CycleDetected : error := ErrorsNew "loop".

(** ** Documents and collections *)

(** [driver.DocumentMeta]: the key of a document and its id
    ["collection/key"]. *)
Record DocumentMeta : Type := { Key : string; ID : string }.

(** [myEdge]: the payload of an edge document. *)
Record myEdge : Type := { From : string; To : string }.

(** An edge document as stored: the payload and the key the collection gave
    it. *)
Record EdgeDoc : Type := { ekey : string; efrom : string; eto : string }.

(** The part of [DAG] that names things: the two collection names.  The
    [db] and [client] handles are the [Store] itself. *)
Record DAG : Type := { vertices : string; edges : string }.

(** The content of the two collections, in insertion order. *)
Record Store : Type := { vdocs : list string; edocs : list EdgeDoc }.

Definition mkID (coll key : string) : string := coll ++ "/" ++ key.

Definition edge_meta (d : DAG) (e : EdgeDoc) : DocumentMeta :=
  {| Key := ekey e; ID := mkID (edges d) (ekey e) |}.

(** The key generator of a collection: the decimal numeral of the number of
    documents created so far. *)
Definition gen_key (n : nat) : string := NilEmpty.string_of_uint (Nat.to_uint n).

(** ** The world and its monad *)

(** [faults] schedules the failures of the coming driver calls: [true] makes
    the next call fail, [false] lets it through, and an exhausted schedule
    means no further failure. *)
Record World : Type := { store : Store; faults : list bool }.

Definition M (St A : Type) : Type := St -> (error + A) * St.

Definition ret {St A} (a : A) : M St A := fun s => (inr a, s).
Definition throw {St A} (e : error) : M St A := fun s => (inl e, s).
Definition bind {St A B} (m : M St A) (k : A -> M St B) : M St B :=
  fun s => match m s with
           | (inl e, s') => (inl e, s')
           | (inr a, s') => k a s'
           end.

Declare Scope dag_scope.
Delimit Scope dag_scope with dag.
Notation "x <- m ;; k" := (bind m (fun x => k))
  (at level 61, m at next level, right associativity) : dag_scope.
Notation "m ;;; k" := (bind m (fun _ => k))
  (at level 61, right associativity) : dag_scope.
Local Open Scope dag_scope.

(** Runs a world action inside a larger state (the world and a visitor's
    own state). *)
Definition liftW {T A} (m : M World A) : M (World * T) A :=
  fun s => let '(r, w') := m (fst s) in (r, (w', snd s)).

(** One round trip to the database. *)
Definition driver_call : M World unit :=
  fun w => match faults w with
           | true :: fs => (inl StoreFailure, {| store := store w; faults := fs |})
           | false :: fs => (inr tt, {| store := store w; faults := fs |})
           | [] => (inr tt, w)
           end.

Definition get_store : M World Store := fun w => (inr (store w), w).
Definition put_store (st : Store) : M World unit :=
  fun w => (inr tt, {| store := st; faults := faults w |}).

(** ** Graph searches of the query engine *)

Section Search.
(** [nbrs v] lists the neighbours of [v] in the direction of the search,
    [src] is its start vertex. *)
Variable nbrs : string -> list string.
Variable src : string.

(** Predecessor pointers: [(w, v)] records that [w] was first reached
    from [v]. *)
Definition Pred : Type := list (string * string).

Definition visited (pred : Pred) (v : string) : bool :=
  (v =? src) || existsb (fun p => fst p =? v) pred.

Fixpoint lookup (v : string) (pred : Pred) : option string :=
  match pred with
  | [] => None
  | (w, p) :: pred' => if w =? v then Some p else lookup v pred'
  end.

(** Scans the neighbours [ns] of [v]: each one not seen before gets [v]
    as predecessor and joins the next frontier. *)
Fixpoint relax (v : string) (ns : list string) (pred : Pred) (next : list string)
  : Pred * list string :=
  match ns with
  | [] => (pred, next)
  | w :: ns' =>
      if visited pred w then relax v ns' pred next
      else relax v ns' ((w, v) :: pred) (next ++ [w])
  end.

(** Expands a whole frontier, vertex by vertex. *)
Fixpoint expand (frontier : list string) (pred : Pred) (next : list string)
  : Pred * list string :=
  match frontier with
  | [] => (pred, next)
  | v :: fs => let '(pred', next') := relax v (nbrs v) pred next in
               expand fs pred' next'
  end.

(** Breadth-first search for [dst], frontier by frontier; the answer is
    the predecessor map at the moment [dst] enters the frontier. *)
Fixpoint search (dst : string) (fuel : nat) (frontier : list string) (pred : Pred)
  : option Pred :=
  if existsb (String.eqb dst) frontier then Some pred
  else match frontier, fuel with
       | [], _ => None
       | _, O => None
       | _, S fuel' => let '(pred', next) := expand frontier pred [] in
                       search dst fuel' next pred'
       end.

(** Walks the predecessor pointers from [v] back to [src]. *)
Fixpoint walk_back (fuel : nat) (pred : Pred) (v : string) : option (list string) :=
  if v =? src then Some [src]
  else match fuel with
       | O => None
       | S fuel' =>
           match lookup v pred with
           | None => None
           | Some p => match walk_back fuel' pred p with
                       | None => None
                       | Some l => Some (v :: l)
                       end
           end
       end.

(** Breadth-first walk of at most [depth] frontiers, every vertex kept
    once (vertex uniqueness "global"). *)
Fixpoint bfs_walk (depth : nat) (frontier : list string) (pred : Pred) : Pred :=
  match depth, frontier with
  | O, _ => pred
  | _, [] => pred
  | S depth', _ => let '(pred', next) := expand frontier pred [] in
                   bfs_walk depth' next pred'
  end.

(** [nwalk n u v]: [n] steps along [nbrs] lead from [u] to [v]. *)
Inductive nwalk : nat -> string -> string -> Prop :=
| nwalk_nil : forall v, nwalk 0 v v
| nwalk_snoc : forall n u v w, nwalk n u v -> In w (nbrs v) -> nwalk (S n) u w.

(** [chain pred n v]: [n] predecessor pointers lead from [v] to [src]. *)
Inductive chain (pred : Pred) : nat -> string -> Prop :=
| chain_src : chain pred 0 src
| chain_step : forall n w v, In (w, v) pred -> chain pred n v -> chain pred (S n) w.

(** The state of the search when the frontier [F] holds the vertices first
    reached after [k] steps. *)
Record Inv (k : nat) (F : list string) (pred : Pred) : Prop := {
  inv_edges : forall w v, In (w, v) pred -> In w (nbrs v);
  inv_nodup : NoDup (map fst pred);
  inv_nosrc : ~ In src (map fst pred);
  inv_front : forall v, In v F -> chain pred k v;
  inv_keys : forall w v, In (w, v) pred -> exists n, n < k /\ chain pred n v;
  inv_closed : forall v, visited pred v = true -> ~ In v F ->
                         forall w, In w (nbrs v) -> visited pred w = true;
  inv_near : forall n v, n <= k -> nwalk n src v -> visited pred v = true;
  inv_len : F <> [] -> k <= List.length pred
}.
End Search.

Definition outbound (E : list EdgeDoc) (v : string) : list string :=
  map eto (filter (fun e => efrom e =? v) E).

Definition inbound (E : list EdgeDoc) (v : string) : list string :=
  map efrom (filter (fun e => eto e =? v) E).

(** Modelled from the spec: the engine's [OUTBOUND SHORTEST_PATH], which is
    not under src/.  Section 4.2: breadth-first search from [src] over
    outbound edges, recording a predecessor pointer per first-visited
    vertex; the path is rebuilt by walking predecessors from [dst] back to
    [src] and reversing.  No path is the empty list. *)
Definition shortest_path (E : list EdgeDoc) (src dst : string) : list string :=
  match search (outbound E) src dst (S (List.length E)) [src] [] with
  | None => []
  | Some pred => match walk_back src (List.length pred) pred dst with
                 | None => []
                 | Some l => rev l
                 end
  end.

(** The upper end of the depth range [1..10000] in the query text of
    [WalkAncestors]. *)
Definition maxDepth : nat := 100 * 100.
Global Opaque maxDepth.

(** The two option sets [WalkAncestors] sends: order "bfs" with
    uniqueVertices "global", and order "dfs" with uniqueVertices "none". *)
Inductive TraversalOptions : Type := BfsGlobal | DfsNone.

(** Depth-first enumeration of the inbound paths of at most [depth] edges
    from [v], no vertex uniqueness; an edge is not taken twice on one path
    (the engine's default edge uniqueness). *)
Fixpoint dfs_inbound (E : list EdgeDoc) (depth : nat) (v : string) (used : list string)
  : list string :=
  match depth with
  | O => []
  | S depth' =>
      flat_map (fun e => if existsb (String.eqb (ekey e)) used then []
                         else efrom e :: dfs_inbound E depth' (efrom e) (ekey e :: used))
               (filter (fun e => eto e =? v) E)
  end.

(** Modelled from the spec: the engine's [INBOUND] traversal, which is not
    under src/.  Section 4.2: the walk follows edges backward from the start
    vertex; breadth-first order is frontier-based and globally deduplicated,
    depth-first order is not deduplicated.  The depth range is the one the
    query text of [WalkAncestors] asks for, [1..10000]: the start vertex, at
    depth 0, is not emitted, and no vertex beyond depth [maxDepth] is. *)
Definition traverse_inbound (E : list EdgeDoc) (opts : TraversalOptions) (from : string)
  : list string :=
  match opts with
  | BfsGlobal => rev (map fst (bfs_walk (inbound E) from maxDepth [from] []))
  | DfsNone => dfs_inbound E maxDepth from []
  end.

(** [RETURN DISTINCT] in the query text of [WalkAncestors]: each value once,
    at its first occurrence. *)
Fixpoint distinct_from (seen : list (option string)) (l : list (option string))
  : list (option string) :=
  match l with
  | [] => []
  | x :: l' =>
      if existsb (fun y => match x, y with
                           | Some a, Some b => a =? b
                           | None, None => true
                           | _, _ => false
                           end) seen
      then distinct_from seen l'
      else x :: distinct_from (x :: seen) l'
  end.

Definition distinct (l : list (option string)) : list (option string) :=
  distinct_from [] l.

(** ** Queries *)

(** The AQL queries of [dag.go] with their bind variables. *)
Inductive Query : Type :=
| QEdge (from to : string)
    (* FOR d IN @@collection FILTER d._from == @from AND d._to == @to RETURN d *)
| QShortestPath (from to : string)
    (* FOR v IN OUTBOUND SHORTEST_PATH @from TO @to @@collection RETURN v *)
| QRoots
    (* FOR v IN @@vertexCollection FILTER LENGTH(FOR vv IN 1..1 INBOUND v
       @@edgeCollection LIMIT 1 RETURN 1) == 0 RETURN v *)
| QLeaves
    (* the same with OUTBOUND *)
| QAncestors (from : string) (opts : TraversalOptions).
    (* FOR v IN 1..10000 INBOUND @from @@collection OPTIONS {order: @order,
       uniqueVertices: @uniqueVertices} RETURN DISTINCT v *)

(** The vertex document with id [id]: its key, or [None] (AQL [null]) when
    no vertex has that id. *)
Definition vertex_doc (d : DAG) (st : Store) (id : string) : option string :=
  find (fun k => mkID (vertices d) k =? id) (vdocs st).

(** What the driver decodes from a returned vertex: a [null] decodes to the
    zero [DocumentMeta]. *)
Definition doc_meta (d : DAG) (doc : option string) : DocumentMeta :=
  match doc with
  | Some k => {| Key := k; ID := mkID (vertices d) k |}
  | None => {| Key := ""; ID := "" |}
  end.

Definition Cursor : Type := list DocumentMeta.

Definition eval_query (d : DAG) (st : Store) (q : Query) : Cursor :=
  match q with
  | QEdge from to =>
      map (edge_meta d)
          (filter (fun e => (efrom e =? from) && (eto e =? to)) (edocs st))
  | QShortestPath from to =>
      map (fun id => doc_meta d (vertex_doc d st id)) (shortest_path (edocs st) from to)
  | QRoots =>
      map (fun k => doc_meta d (Some k))
          (filter (fun k => match inbound (edocs st) (mkID (vertices d) k) with
                            | [] => true
                            | _ :: _ => false
                            end) (vdocs st))
  | QLeaves =>
      map (fun k => doc_meta d (Some k))
          (filter (fun k => match outbound (edocs st) (mkID (vertices d) k) with
                            | [] => true
                            | _ :: _ => false
                            end) (vdocs st))
  | QAncestors from opts =>
      map (doc_meta d)
          (distinct (map (vertex_doc d st) (traverse_inbound (edocs st) opts from)))
  end.

(** ** The driver

    Modelled from the spec: the backing store of section 6 (ReadVertex,
    CreateEdge, FindEdge and the queries), reached through the Go driver,
    neither of which is under src/.  A read of a missing key is the
    not-found error, any call can fail with a store failure, and documents
    keep their insertion order. *)

(** [d.vertices.ReadDocument(ctx, key, nil)] *)
Definition vertices_ReadDocument (d : DAG) (key : string) : M World DocumentMeta :=
  driver_call ;;;
  st <- get_store ;;
  if existsb (String.eqb key) (vdocs st)
  then ret {| Key := key; ID := mkID (vertices d) key |}
  else throw NotFound.

(** [d.edges.CreateDocument(ctx, myEdge{...})] *)
Definition edges_CreateDocument (d : DAG) (e : myEdge) : M World DocumentMeta :=
  driver_call ;;;
  st <- get_store ;;
  let doc := {| ekey := gen_key (List.length (edocs st)); efrom := From e; eto := To e |} in
  put_store {| vdocs := vdocs st; edocs := edocs st ++ [doc] |} ;;;
  ret (edge_meta d doc).

(** [d.vertices.Count(ctx)] and [d.edges.Count(ctx)] *)
Definition vertices_Count : M World nat :=
  driver_call ;;; st <- get_store ;; ret (List.length (vdocs st)).

Definition edges_Count : M World nat :=
  driver_call ;;; st <- get_store ;; ret (List.length (edocs st)).

(** [d.db.Query(ctx, query, bindVars)]: the engine evaluates the query on
    the current content and hands back a cursor over the result. *)
Definition db_Query (d : DAG) (q : Query) : M World Cursor :=
  driver_call ;;;
  st <- get_store ;;
  ret (eval_query d st q).

(** [cursor.ReadDocument(ctx, &doc)]: [None] is the no-more-documents
    error.  A failed read leaves the cursor where it was. *)
Definition cursor_ReadDocument (c : Cursor) : M World (option DocumentMeta * Cursor) :=
  driver_call ;;;
  match c with
  | [] => ret (None, [])
  | m :: c' => ret (Some m, c')
  end.

(** The loop [for { meta, err := cursor.ReadDocument(...); if
    IsNoMoreDocuments(err) { break }; if err != nil { return ..., err };
    body }] over a cursor; [read] is the round trip of each
    [ReadDocument]. *)
Fixpoint cursor_loop {St A} (read : M St unit) (body : DocumentMeta -> A -> M St A)
  (c : Cursor) (a : A) : M St A :=
  match c with
  | [] => read ;;; ret a
  | m :: c' => read ;;; a' <- body m a ;; cursor_loop read body c' a'
  end.

(** ** The operations of dag.go *)

Definition getVertex (d : DAG) (key : string) : M World string :=
  meta <- vertices_ReadDocument d key ;;
  ret (ID meta).


Definition GetOrder : M World nat := vertices_Count.

Definition GetSize : M World nat := edges_Count.

Definition getEdgeId (d : DAG) (srcId dstId : string) : M World string :=
  cursor <- db_Query d (QEdge srcId dstId) ;;
  r <- cursor_ReadDocument cursor ;;
  match fst r with
  | None => ret ""
  | Some meta => ret (ID meta)
  end.

Definition getShortestPath (d : DAG) (srcId dstId : string)
  : M World (list DocumentMeta) :=
  cursor <- db_Query d (QShortestPath srcId dstId) ;;
  cursor_loop driver_call (fun meta result => ret (result ++ [meta])) cursor [].

Definition AddEdge (d : DAG) (src dst : string) : M World unit :=
  (* ensure vertices exist *)
  srcId <- getVertex d src ;;
  dstId <- getVertex d dst ;;
  (* prevent duplicate edge *)
  id <- getEdgeId d srcId dstId ;;
  if negb (id =? "") then throw DuplicateEdge else
  (* prevent loops *)
  path <- getShortestPath d dstId srcId ;;
  match path with
  | _ :: _ =>
      if (List.length path =? 1)%nat then throw SelfLoop else throw CycleDetected
  | [] =>
      (* add edge *)
      edges_CreateDocument d {| From := srcId; To := dstId |} ;;; ret tt
  end.

Definition IsEdge (d : DAG) (src dst : string) : M World bool :=
  srcId <- getVertex d src ;;
  dstId <- getVertex d dst ;;
  id <- getEdgeId d srcId dstId ;;
  if id =? "" then ret false else ret true.

Definition GetShortestPath (d : DAG) (src dst : string) : M World (list string) :=
  srcId <- getVertex d src ;;
  dstId <- getVertex d dst ;;
  path <- getShortestPath d srcId dstId ;;
  ret (map Key path).

Definition getLeaves (d : DAG) : M World (list DocumentMeta) :=
  cursor <- db_Query d QLeaves ;;
  cursor_loop driver_call (fun meta result => ret (result ++ [meta])) cursor [].

Definition GetLeaves (d : DAG) : M World (list string) :=
  leaves <- getLeaves d ;;
  ret (map Key leaves).

Definition getRoots (d : DAG) : M World (list DocumentMeta) :=
  cursor <- db_Query d QRoots ;;
  cursor_loop driver_call (fun meta result => ret (result ++ [meta])) cursor [].

Definition GetRoots (d : DAG) : M World (list string) :=
  roots <- getRoots d ;;
  ret (map Key roots).

(** [WalkFunc]: the visitor of [WalkAncestors].  A Go closure carries its
    own state, here [T]; [Some e] is a non-nil error. *)
Definition WalkFunc (T : Type) : Type := string -> T -> option error * T.

Definition apply_fn {T} (fn : WalkFunc T) (key : string) : M (World * T) unit :=
  fun s => match fn key (snd s) with
           | (Some e, t') => (inl e, (fst s, t'))
           | (None, t') => (inr tt, (fst s, t'))
           end.

Definition WalkAncestors {T} (d : DAG) (key : string) (fn : WalkFunc T) (dfs : bool)
  : M (World * T) unit :=
  (* get the id of the vertex *)
  id <- liftW (getVertex d key) ;;
  (* compute query options *)
  let opts := if dfs then DfsNone else BfsGlobal in
  (* execute the query *)
  cursor <- liftW (db_Query d (QAncestors id opts)) ;;
  (* iterate query results, apply function *)
  cursor_loop (liftW driver_call) (fun meta _ => apply_fn fn (Key meta)) cursor tt.

(** *** The root walker

    [GetRootsWalker] starts a goroutine and returns three channels.  The
    goroutine is modelled by the sequence of its channel operations, for a
    consumer that takes what is sent; [signals] tells, for each [select],
    whether a value is waiting on [chanSignal]. *)
Inductive event : Type :=
| SendError (e : error)      (* chanErrors <- e *)
| SendRoot (key : string)    (* chanRoots <- key *)
| CloseRoots                 (* close(chanRoots) *)
| CloseErrors.               (* close(chanErrors) *)

Fixpoint roots_loop (fuel : nat) (c : Cursor) (signals : list bool) (w : World)
  : list event * World :=
  match fuel with
  | O => ([], w)
  | S fuel' =>
      match cursor_ReadDocument c w with
      | (inr (None, _), w') => ([], w')
      | (inl errRead, w') =>
          let '(evs, w'') := roots_loop fuel' c signals w' in
          (SendError errRead :: evs, w'')
      | (inr (Some key, c'), w') =>
          match signals with
          | true :: _ => ([], w')
          | _ => let '(evs, w'') := roots_loop fuel' c' (tl signals) w' in
                 (SendRoot (Key key) :: evs, w'')
          end
      end
  end.

(** Every turn of the loop uses up a document of the cursor or a scheduled
    fault, which bounds the number of turns. *)
Definition GetRootsWalker (d : DAG) (signals : list bool) (w : World)
  : list event * World :=
  match db_Query d QRoots w with
  | (inl err, w') => ([SendError err; CloseRoots; CloseErrors], w')
  | (inr cursor, w') =>
      let '(evs, w'') :=
        roots_loop (S (List.length cursor + List.length (faults w'))) cursor signals w' in
      (evs ++ [CloseRoots; CloseErrors], w'')
  end.

(** *** Concurrent callers

    [AddEdge] holds no lock and opens no transaction: between two of its
    requests to the database another caller's request can be served.  The
    program points between the requests: *)
Inductive AddEdgeState : Type :=
| AtSrc
| AtDst (srcId : string)
| AtDuplicate (srcId dstId : string)
| AtLoop (srcId dstId : string)
| AtInsert (srcId dstId : string)
| Returned (err : option error).

(** One step of [AddEdge]: the next helper call and the decision on its
    result. *)
Definition AddEdge_step (d : DAG) (src dst : string) (s : AddEdgeState) (w : World)
  : AddEdgeState * World :=
  match s with
  | AtSrc =>
      match getVertex d src w with
      | (inl errSrc, w') => (Returned (Some errSrc), w')
      | (inr srcId, w') => (AtDst srcId, w')
      end
  | AtDst srcId =>
      match getVertex d dst w with
      | (inl errDst, w') => (Returned (Some errDst), w')
      | (inr dstId, w') => (AtDuplicate srcId dstId, w')
      end
  | AtDuplicate srcId dstId =>
      match getEdgeId d srcId dstId w with
      | (inl errEdge, w') => (Returned (Some errEdge), w')
      | (inr id, w') =>
          if negb (id =? "") then (Returned (Some DuplicateEdge), w')
          else (AtLoop srcId dstId, w')
      end
  | AtLoop srcId dstId =>
      match getShortestPath d dstId srcId w with
      | (inl errSrc, w') => (Returned (Some errSrc), w')
      | (inr path, w') =>
          match path with
          | _ :: _ => if (List.length path =? 1)%nat
                      then (Returned (Some SelfLoop), w')
                      else (Returned (Some CycleDetected), w')
          | [] => (AtInsert srcId dstId, w')
          end
      end
  | AtInsert srcId dstId =>
      match edges_CreateDocument d {| From := srcId; To := dstId |} w with
      | (inl err, w') => (Returned (Some err), w')
      | (inr _, w') => (Returned None, w')
      end
  | Returned err => (Returned err, w)
  end.


(** *** Sequences of calls *)

(** One call of [AddEdge] on a store, under its own fault schedule. *)
Definition call_AddEdge (d : DAG) (src dst : string) (fs : list bool) (st : Store)
  : (error + unit) * Store :=
  let '(r, w') := AddEdge d src dst {| store := st; faults := fs |} in (r, store w').

(** A sequence of calls, each with the faults it meets; errors are returned
    to the caller and the sequence goes on. *)
Fixpoint add_edges (d : DAG) (calls : list (string * string * list bool)) (st : Store)
  : Store :=
  match calls with
  | [] => st
  | (src, dst, fs) :: calls' => add_edges d calls' (snd (call_AddEdge d src dst fs st))
  end.

(** ** Graphs *)

Definition edge (E : list EdgeDoc) (u v : string) : Prop :=
  exists e, In e E /\ efrom e = u /\ eto e = v.

(** [walk E n u v]: [n] edges lead from [u] to [v]. *)
Inductive walk (E : list EdgeDoc) : nat -> string -> string -> Prop :=
| walk_nil : forall v, walk E 0 v v
| walk_snoc : forall n u v w, walk E n u v -> edge E v w -> walk E (S n) u w.

Definition reach (E : list EdgeDoc) (u v : string) : Prop := exists n, walk E n u v.

(** No directed cycle of length at least 1. *)
Definition acyclic (E : list EdgeDoc) : Prop :=
  forall v n, ~ walk E (S n) v v.

(** [is_path E p]: consecutive vertices of [p] are joined by stored edges,
    in the forward direction. *)
Fixpoint is_path (E : list EdgeDoc) (p : list string) : Prop :=
  match p with
  | [] => True
  | u :: p' => match p' with
               | [] => True
               | v :: _ => edge E u v /\ is_path E p'
               end
  end.

Definition edge_count (E : list EdgeDoc) (from to : string) : nat :=
  List.length (filter (fun e => (efrom e =? from) && (eto e =? to)) E).


(** ** Runs and examples *)

(** A world in which no driver call fails. *)
Definition quiet (st : Store) : World := {| store := st; faults := [] |}.

(** A visitor that also records the keys it is called with. *)
Definition logging {T} (fn : WalkFunc T) : WalkFunc (T * list string) :=
  fun key s => let '(r, t') := fn key (fst s) in (r, (t', snd s ++ [key])).

(** The visitor that does nothing. *)
Definition visit_ok : WalkFunc unit := fun _ t => (None, t).

Definition dag0 : DAG := {| vertices := "vertices"; edges := "edges" |}.

(** Vertices [A], [B], [C], no edge. *)
Definition abc : Store := {| vdocs := ["A"; "B"; "C"]; edocs := [] |}.

(** The diamond [A -> B -> D], [A -> C -> D]. *)
Definition diamond : Store :=
  add_edges dag0 [("A", "B", []); ("B", "D", []); ("A", "C", []); ("C", "D", [])]
            {| vdocs := ["A"; "B"; "C"; "D"]; edocs := [] |}.

(** The vertex names [c], [ca], [caa], ... *)
Fixpoint tally (n : nat) : string :=
  match n with
  | O => ""
  | S n' => String "a" (tally n')
  end.

Definition ckey (n : nat) : string := String "c" (tally n).
Definition cid (n : nat) : string := mkID (vertices dag0) (ckey n).

(** The chain [c_n -> ... -> c_1 -> c_0] of [n] edges. *)
Definition chain_store (n : nat) : Store :=
  {| vdocs := map ckey (seq 0 (S n));
     edocs := map (fun i => {| ekey := gen_key i; efrom := cid (S i); eto := cid i |})
                  (seq 0 n) |}.

(** Every stored edge joins two stored vertices of the DAG's vertex
    collection. *)
Definition well_formed (d : DAG) (st : Store) : Prop :=
  forall e, In e (edocs st) ->
    (exists k, In k (vdocs st) /\ efrom e = mkID (vertices d) k) /\
    (exists k, In k (vdocs st) /\ eto e = mkID (vertices d) k).

(** The store after a successful [AddEdge(src, dst)]. *)
Definition with_edge (d : DAG) (src dst : string) (st : Store) : Store :=
  {| vdocs := vdocs st;
     edocs := edocs st ++ [{| ekey := gen_key (List.length (edocs st));
                              efrom := mkID (vertices d) src;
                              eto := mkID (vertices d) dst |}] |}.

(** The identifiers a consumer has received on [chanRoots]. *)
Fixpoint sent_roots (evs : list event) : list string :=
  match evs with
  | [] => []
  | SendRoot key :: evs' => key :: sent_roots evs'
  | _ :: evs' => sent_roots evs'
  end.

(** [n] steps of one caller with nobody else at the database. *)
Fixpoint run_steps (d : DAG) (src dst : string) (n : nat) (s : AddEdgeState) (w : World)
  : AddEdgeState * World :=
  match n with
  | O => (s, w)
  | S n' => let '(s', w') := AddEdge_step d src dst s w in run_steps d src dst n' s' w'
  end.


(** The errors that come from the driver. *)
Definition driver_error (e : error) : Prop := e = NotFound \/ e = StoreFailure.

(** [errs m P]: every error [m] returns satisfies [P]. *)
Definition errs {St A} (m : M St A) (P : error -> Prop) : Prop :=
  forall s e s', m s = (inl e, s') -> P e.

(** [path_from R u p w]: the vertex list [p] starts at [u], ends at [w],
    and consecutive vertices are related by [R]. *)
Inductive path_from (R : string -> string -> Prop) : string -> list string -> string -> Prop :=
| path_one : forall v, path_from R v [v] v
| path_cons : forall u v p w, R u v -> path_from R v p w -> path_from R u (u :: p) w.

(** ** What an operation does to the world *)

(** [keeps wo m]: [m] leaves the content of the database as it was; [wo]
    finds the world in the state [m] runs on. *)
Definition keeps {St A} (wo : St -> World) (m : M St A) : Prop :=
  forall s r s', m s = (r, s') -> store (wo s') = store (wo s).






(** Edge documents have keys of their own. *)
Definition unique_keys (E : list EdgeDoc) : Prop :=
  forall e e', In e E -> In e' E -> ekey e = ekey e' -> e = e'.

(** * Facts *)

(** ** Strings and identifiers *)

Lemma append_inj_r (s a b : string) : (s ++ a)%string = (s ++ b)%string -> a = b.
Proof.
  induction s as [|c s IH]; simpl; intros H.
  - exact H.
  - inversion H; auto.
Qed.

Lemma mkID_inj (c a b : string) : mkID c a = mkID c b -> a = b.
Proof.
  unfold mkID. intros H.
  apply append_inj_r in H. simpl in H. inversion H; auto.
Qed.

Lemma mkID_nonempty (c k : string) : (mkID c k =? "") = false.
Proof.
  apply String.eqb_neq. unfold mkID.
  destruct c; simpl; discriminate.
Qed.

Lemma existsb_eqb_In (x : string) (l : list string) :
  existsb (String.eqb x) l = true <-> In x l.
Proof.
  rewrite existsb_exists. split.
  - intros [y [Hy He]]. apply String.eqb_eq in He. subst; auto.
  - intros H. exists x. split; auto. apply String.eqb_refl.
Qed.

(** ** Paths *)

Lemma path_from_snoc R u p w x :
  path_from R u p w -> R w x -> path_from R u (p ++ [x]) x.
Proof.
  induction 1 as [v | u v p w Huv Hp IH]; intros Hx; simpl.
  - apply path_cons with (v := x); auto. constructor.
  - apply path_cons with (v := v); auto.
Qed.

Lemma path_from_rev R u p w :
  path_from R u p w -> path_from (fun a b => R b a) w (rev p) u.
Proof.
  induction 1 as [v | u v p w Huv Hp IH]; simpl.
  - constructor.
  - eapply path_from_snoc; eauto.
Qed.

Lemma path_from_impl (R R' : string -> string -> Prop) u p w :
  (forall a b, R a b -> R' a b) -> path_from R u p w -> path_from R' u p w.
Proof.
  intros HR. induction 1; econstructor; eauto.
Qed.

Lemma path_from_hd R u p w : path_from R u p w -> hd_error p = Some u.
Proof. destruct 1; reflexivity. Qed.

Lemma path_from_map (R : string -> string -> Prop) (f : string -> string) u p w :
  path_from (fun a b => R (f a) (f b)) u p w -> path_from R (f u) (map f p) (f w).
Proof.
  induction 1 as [v | u v p w Huv Hp IH]; simpl.
  - constructor.
  - destruct Hp; simpl in *; econstructor; eauto.
Qed.

Lemma path_from_last R u p w d : path_from R u p w -> last p d = w.
Proof.
  intros H. revert d. induction H as [v | u v p w Huv Hp IH]; intros d; simpl; auto.
  destruct Hp; apply (IH d).
Qed.

Lemma path_from_is_path E u p w : path_from (edge E) u p w -> is_path E p.
Proof.
  induction 1 as [v | u v p w Huv Hp IH]; simpl; auto.
  destruct Hp; simpl in *; auto.
Qed.

Lemma walk_cons E n u v w : edge E u v -> walk E n v w -> walk E (S n) u w.
Proof.
  intros Huv. induction 1 as [v | n v x y Hw IH Hxy].
  - apply walk_snoc with (v := u); auto. constructor.
  - apply walk_snoc with (v := x); auto.
Qed.

Lemma walk_app E n m u v w : walk E n u v -> walk E m v w -> walk E (n + m) u w.
Proof.
  intros Huv. induction 1 as [v | m v x y Hw IH Hxy].
  - rewrite Nat.add_0_r; auto.
  - rewrite Nat.add_succ_r. eapply walk_snoc; eauto.
Qed.

Lemma path_from_walk E u p w :
  path_from (edge E) u p w -> walk E (List.length p - 1) u w.
Proof.
  induction 1 as [v | u v p w Huv Hp IH]; simpl.
  - constructor.
  - rewrite Nat.sub_0_r. destruct Hp as [v | v x p w Hvx Hp]; simpl in *.
    + eapply walk_cons; eauto.
    + rewrite Nat.sub_0_r in IH. eapply walk_cons; eauto.
Qed.

Lemma In_outbound E v w : In w (outbound E v) <-> edge E v w.
Proof.
  unfold outbound, edge. rewrite in_map_iff. split.
  - intros [e [Ht Hf]]. apply filter_In in Hf as [Hin He].
    apply String.eqb_eq in He. eauto.
  - intros [e [Hin [Hf Ht]]]. exists e. split; auto.
    apply filter_In. split; auto. apply String.eqb_eq; auto.
Qed.

Lemma In_inbound E v w : In w (inbound E v) <-> edge E w v.
Proof.
  unfold inbound, edge. rewrite in_map_iff. split.
  - intros [e [Hf Ht]]. apply filter_In in Ht as [Hin He].
    apply String.eqb_eq in He. eauto.
  - intros [e [Hin [Hf Ht]]]. exists e. split; auto.
    apply filter_In. split; auto. apply String.eqb_eq; auto.
Qed.

(** ** The breadth-first search *)

Section SearchFacts.
Variable nbrs : string -> list string.
Variable src : string.

Local Abbreviation keys := (map (@fst string string)).

Lemma visited_spec pred v :
  visited src pred v = true <-> v = src \/ In v (keys pred).
Proof.
  unfold visited. rewrite orb_true_iff, String.eqb_eq, existsb_exists, in_map_iff.
  split; (intros [H | [p [H1 H2]]]; [left; auto | right]).
  - exists p. apply String.eqb_eq in H2. auto.
  - exists p. split; auto. apply String.eqb_eq; auto.
Qed.

Lemma visited_false pred v :
  visited src pred v = false <-> v <> src /\ ~ In v (keys pred).
Proof.
  rewrite <- not_true_iff_false, visited_spec. tauto.
Qed.

Lemma visited_app add pred v :
  visited src (add ++ pred) v = true <->
  In v (keys add) \/ visited src pred v = true.
Proof.
  rewrite !visited_spec, map_app, in_app_iff. tauto.
Qed.

Lemma chain_mono pred pred' n v :
  incl pred pred' -> chain src pred n v -> chain src pred' n v.
Proof.
  intros Hi. induction 1; econstructor; eauto.
Qed.

Lemma chain_visited pred n v : chain src pred n v -> visited src pred v = true.
Proof.
  destruct 1 as [| n w v Hin _]; apply visited_spec; auto.
  right. apply in_map_iff. exists (w, v); auto.
Qed.

Lemma chain_nwalk pred n v :
  (forall w p, In (w, p) pred -> In w (nbrs p)) ->
  chain src pred n v -> nwalk nbrs n src v.
Proof.
  intros He. induction 1; econstructor; eauto.
Qed.

Lemma relax_spec v ns : forall pred next pred' next',
  relax src v ns pred next = (pred', next') ->
  exists add,
    pred' = add ++ pred /\ next' = next ++ rev (keys add) /\
    (forall w p, In (w, p) add -> p = v /\ In w ns /\ visited src pred w = false) /\
    NoDup (keys add) /\
    (forall w, In w ns -> visited src pred' w = true).
Proof.
  induction ns as [|w ns IH]; simpl; intros pred next pred' next' H.
  - inversion H; subst. exists []. simpl. rewrite app_nil_r.
    repeat split; auto; try tauto. constructor.
  - destruct (visited src pred w) eqn:Hv.
    + destruct (IH _ _ _ _ H) as [add [Hp [Hn [Hadd [Hnd Hcov]]]]].
      exists add. repeat split; auto.
      * destruct (Hadd _ _ H0) as [? _]; auto.
      * destruct (Hadd _ _ H0) as [_ [? _]]; auto.
      * destruct (Hadd _ _ H0) as [_ [_ ?]]; auto.
      * intros x [<- | Hx]; auto. subst pred'. apply visited_app; auto.
    + destruct (IH _ _ _ _ H) as [add [Hp [Hn [Hadd [Hnd Hcov]]]]].
      exists (add ++ [(w, v)]).
      assert (Hvis : forall x, visited src ((w, v) :: pred) x = false ->
                               x <> w /\ visited src pred x = false).
      { intros x Hx. apply visited_false in Hx as [Hx1 Hx2]. simpl in Hx2.
        split; [intros ->; tauto|]. apply visited_false. tauto. }
      repeat split.
      * rewrite <- app_assoc. auto.
      * rewrite map_app, rev_app_distr. simpl. rewrite Hn, <- app_assoc. auto.
      * apply in_app_iff in H0 as [H0 | [H0 | []]].
        -- destruct (Hadd _ _ H0) as [? _]; auto.
        -- inversion H0; auto.
      * apply in_app_iff in H0 as [H0 | [H0 | []]].
        -- destruct (Hadd _ _ H0) as [_ [? _]]; auto.
        -- inversion H0; auto.
      * apply in_app_iff in H0 as [H0 | [H0 | []]].
        -- destruct (Hadd _ _ H0) as [_ [_ ?]]. apply Hvis; auto.
        -- inversion H0; subst; auto.
      * rewrite map_app. simpl. apply NoDup_app; auto.
        -- constructor; [simpl; tauto | constructor].
        -- intros x Hx [<- | []]. apply in_map_iff in Hx as [[a b] [Ha Hb]].
           simpl in Ha; subst a. destruct (Hadd _ _ Hb) as [_ [_ Hf]].
           apply Hvis in Hf. tauto.
      * intros x [<- | Hx]; auto. subst pred'. apply visited_app. right.
        apply visited_spec. right. simpl; auto.
Qed.
Lemma expand_spec F : forall pred next pred' next',
  expand nbrs src F pred next = (pred', next') ->
  exists add,
    pred' = add ++ pred /\ next' = next ++ rev (keys add) /\
    (forall w p, In (w, p) add ->
                 In p F /\ In w (nbrs p) /\ visited src pred w = false) /\
    NoDup (keys add) /\
    (forall v w, In v F -> In w (nbrs v) -> visited src pred' w = true).
Proof.
  induction F as [|v F IH]; simpl; intros pred next pred' next' H.
  - inversion H; subst. exists []. simpl. rewrite app_nil_r.
    repeat split; auto; try tauto. constructor.
  - destruct (relax src v (nbrs v) pred next) as [pred1 next1] eqn:Hr.
    apply relax_spec in Hr as [add1 [Hp1 [Hn1 [Hadd1 [Hnd1 Hcov1]]]]].
    apply IH in H as [add2 [Hp2 [Hn2 [Hadd2 [Hnd2 Hcov2]]]]].
    assert (Hold : forall w, visited src pred1 w = false -> visited src pred w = false).
    { intros w Hw. apply not_true_iff_false. intros Ht.
      apply not_true_iff_false in Hw. apply Hw. subst pred1.
      apply visited_app; auto. }
    exists (add2 ++ add1). split; [|split; [|split; [|split]]].
    + subst. rewrite app_assoc. auto.
    + subst. rewrite map_app, rev_app_distr, app_assoc. auto.
    + intros w p Hin. apply in_app_iff in Hin as [Hin | Hin].
      * destruct (Hadd2 _ _ Hin) as [Ha [Hb Hc]]. auto.
      * destruct (Hadd1 _ _ Hin) as [Ha [Hb Hc]]. subst p. auto.
    + rewrite map_app. apply NoDup_app; auto.
      intros x Hx2 Hx1. apply in_map_iff in Hx2 as [[a b] [Ha Hb]].
      simpl in Ha; subst a. destruct (Hadd2 _ _ Hb) as [_ [_ Hf]].
      apply visited_false in Hf as [_ Hf]. apply Hf. subst pred1.
      rewrite map_app. apply in_app_iff; auto.
    + intros u w [<- | Hu] Hw.
      * subst pred'. apply visited_app. right. apply Hcov1; auto.
      * eapply Hcov2; eauto.
Qed.

Lemma Inv_init : Inv nbrs src 0 [src] [].
Proof.
  constructor; simpl; auto; try tauto.
  - constructor.
  - intros v [<- | []]. constructor.
  - intros v Hv Hn. exfalso. apply Hn. apply visited_spec in Hv as [-> | []].
    simpl; auto.
  - intros n v Hn Hw. assert (n = 0) by lia. subst n.
    apply visited_spec. left. inversion Hw; congruence.
Qed.

Lemma Inv_step k F pred pred' next :
  Inv nbrs src k F pred ->
  expand nbrs src F pred [] = (pred', next) ->
  Inv nbrs src (S k) next pred' /\
  (forall v, visited src pred' v = true <-> In v next \/ visited src pred v = true) /\
  List.length pred' = List.length next + List.length pred.
Proof.
  intros I H.
  apply expand_spec in H as [add [Hp [Hn [Hadd [Hnd Hcov]]]]].
  simpl in Hn.
  assert (Hi : incl pred pred') by (subst pred'; apply incl_appr, incl_refl).
  assert (Hnx : forall v, In v next <-> In v (keys add)).
  { intros v. subst next. rewrite <- in_rev. tauto. }
  assert (Hvis : forall v, visited src pred' v = true <->
                           In v next \/ visited src pred v = true).
  { intros v. subst pred'. rewrite visited_app, Hnx. tauto. }
  split; [|split; auto].
  - constructor.
    + intros w v Hin. subst pred'. apply in_app_iff in Hin as [Hin | Hin].
      * apply Hadd in Hin. tauto.
      * eapply inv_edges; eauto.
    + subst pred'. rewrite map_app. apply NoDup_app; auto.
      * eapply inv_nodup; eauto.
      * intros x Hx1 Hx2. apply in_map_iff in Hx1 as [[a b] [Ha Hb]].
        simpl in Ha; subst a. destruct (Hadd _ _ Hb) as [_ [_ Hf]].
        apply visited_false in Hf. tauto.
    + subst pred'. rewrite map_app, in_app_iff. intros [Hs | Hs].
      * apply in_map_iff in Hs as [[a b] [Ha Hb]].
        simpl in Ha; subst a. destruct (Hadd _ _ Hb) as [_ [_ Hf]].
        apply visited_false in Hf. tauto.
      * eapply inv_nosrc; eauto.
    + intros v Hv. apply Hnx in Hv. apply in_map_iff in Hv as [[a b] [Ha Hb]].
      simpl in Ha; subst a. destruct (Hadd _ _ Hb) as [HF _].
      apply chain_step with (v := b).
      * subst pred'. apply in_app_iff; auto.
      * eapply chain_mono; eauto. eapply inv_front; eauto.
    + intros w v Hin. subst pred'. apply in_app_iff in Hin as [Hin | Hin].
      * destruct (Hadd _ _ Hin) as [HF _]. exists k. split; [lia|].
        eapply chain_mono; eauto. eapply inv_front; eauto.
      * destruct (inv_keys I _ _ Hin) as [n [Hlt Hc]].
        exists n. split; [lia|]. eapply chain_mono; eauto.
    + intros v Hv Hnn w Hw. apply Hvis in Hv as [Hv | Hv]; [tauto|].
      destruct (in_dec string_dec v F) as [HF | HF].
      * eapply Hcov; eauto.
      * apply Hvis. right. eapply inv_closed; eauto.
    + intros n v Hle Hw.
      destruct (Nat.eq_dec n (S k)) as [-> | Hne].
      * inversion Hw as [| n' u' x y Hw' Hxy]; subst.
        assert (Hx : visited src pred x = true) by (eapply inv_near; [exact I | | exact Hw']; lia).
        destruct (in_dec string_dec x F) as [HF | HF].
        -- eapply Hcov; eauto.
        -- apply Hvis. right. eapply inv_closed; eauto.
      * apply Hvis. right. eapply inv_near; [exact I | | exact Hw]. lia.
    + intros Hne. subst pred'. rewrite length_app.
      assert (List.length add = List.length next).
      { subst next. rewrite length_rev, length_map. auto. }
      destruct next; [congruence|]. simpl in *.
      destruct F as [|f F].
      * destruct add as [|[a b] add]; [simpl in *; lia|].
        destruct (Hadd a b) as [[] _]; simpl; auto.
      * assert (k <= List.length pred) by (apply (inv_len I); discriminate). lia.
  - subst pred' next. rewrite length_app, length_rev, length_map. auto.
Qed.
Lemma search_some dst : forall fuel k F pred pred',
  Inv nbrs src k F pred ->
  (forall n, n < k -> ~ nwalk nbrs n src dst) ->
  (visited src pred dst = true -> In dst F) ->
  search nbrs src dst fuel F pred = Some pred' ->
  exists k',
    chain src pred' k' dst /\ (forall n, nwalk nbrs n src dst -> k' <= n) /\
    k' <= List.length pred' /\ NoDup (keys pred') /\ ~ In src (keys pred') /\
    (forall w v, In (w, v) pred' -> In w (nbrs v)).
Proof.
  induction fuel as [|fuel IH]; intros k F pred pred' I Hmin Hdst H; simpl in H;
    destruct (existsb (String.eqb dst) F) eqn:Hex.
  1, 3: inversion H; subst pred'; apply existsb_eqb_In in Hex; exists k;
    repeat split;
    [ eapply inv_front; eauto
    | intros n Hn; destruct (le_lt_dec k n); auto; exfalso; eapply Hmin; eauto
    | apply (inv_len I); intros ->; inversion Hex
    | eapply inv_nodup; eauto
    | eapply inv_nosrc; eauto
    | eapply inv_edges; eauto ].
  - destruct F; discriminate.
  - assert (Hnot : ~ In dst F).
    { intros Hin. apply existsb_eqb_In in Hin. congruence. }
    destruct F as [|f F]; [discriminate|].
    destruct (expand nbrs src (f :: F) pred []) as [pred1 next] eqn:He.
    destruct (Inv_step I He) as [I' [Hvis _]].
    eapply IH; eauto.
    + intros n Hn Hw. apply Hnot, Hdst.
      eapply inv_near; [exact I | | exact Hw]. lia.
    + intros Hv. apply Hvis in Hv as [Hv | Hv]; auto.
      exfalso. auto.
Qed.

Lemma closed_reach k pred :
  Inv nbrs src k [] pred ->
  forall n u v, nwalk nbrs n u v -> visited src pred u = true -> visited src pred v = true.
Proof.
  intros I n u v Hw. induction Hw as [v | n u v w Hw IH Hvw]; intros Hu; auto.
  eapply inv_closed; [exact I | exact (IH Hu) | intros [] | exact Hvw].
Qed.

Lemma search_none (U : list string) dst :
  (forall v w, In w (nbrs v) -> In w U) ->
  forall fuel k F pred,
    Inv nbrs src k F pred ->
    (visited src pred dst = true -> In dst F) ->
    (F <> [] -> List.length U < fuel + List.length pred) ->
    search nbrs src dst fuel F pred = None ->
    forall n, ~ nwalk nbrs n src dst.
Proof.
  intros HU.
  assert (Hbound : forall k F pred, Inv nbrs src k F pred ->
                                    List.length pred <= List.length U).
  { intros k F pred I. rewrite <- (length_map fst pred).
    apply NoDup_incl_length; [eapply inv_nodup; eauto|].
    intros x Hx. apply in_map_iff in Hx as [[a b] [Ha Hb]]. simpl in Ha; subst a.
    eapply HU, inv_edges; eauto. }
  assert (Hempty : forall k pred, Inv nbrs src k [] pred ->
                     (visited src pred dst = true -> In dst []) ->
                     forall n, ~ nwalk nbrs n src dst).
  { intros k pred I Hdst n Hw. apply Hdst. eapply closed_reach; eauto.
    apply visited_spec; auto. }
  induction fuel as [|fuel IH]; intros k F pred I Hdst Hfuel H; simpl in H;
    destruct (existsb (String.eqb dst) F) eqn:Hex; try discriminate.
  - destruct F as [|f F]; [eapply Hempty; eauto|].
    exfalso. assert (List.length U < 0 + List.length pred) by (apply Hfuel; discriminate).
    specialize (Hbound _ _ _ I). lia.
  - assert (Hnot : ~ In dst F).
    { intros Hin. apply existsb_eqb_In in Hin. congruence. }
    destruct F as [|f F]; [eapply Hempty; eauto|].
    destruct (expand nbrs src (f :: F) pred []) as [pred1 next] eqn:He.
    destruct (Inv_step I He) as [I' [Hvis Hlen]].
    eapply IH; eauto.
    + intros Hv. apply Hvis in Hv as [Hv | Hv]; auto.
      exfalso. auto.
    + intros Hne. assert (List.length U < S fuel + List.length pred)
        by (apply Hfuel; discriminate).
      destruct next; [congruence|]. simpl in Hlen. lia.
Qed.

Lemma bfs_walk_inv : forall depth k F pred,
  Inv nbrs src k F pred ->
  exists k' F', k' <= k + depth /\ Inv nbrs src k' F' (bfs_walk nbrs src depth F pred).
Proof.
  induction depth as [|depth IH]; intros k F pred I; simpl.
  - exists k, F. split; [lia | auto].
  - destruct F as [|f F].
    + exists k, []. split; [lia | auto].
    + destruct (expand nbrs src (f :: F) pred []) as [pred1 next] eqn:He.
      destruct (Inv_step I He) as [I' _].
      destruct (IH _ _ _ I') as [k' [F' [Hk HI]]].
      exists k', F'. split; [lia | auto].
Qed.

Lemma bfs_walk_sound depth w :
  In w (keys (bfs_walk nbrs src depth [src] [])) ->
  exists n, 1 <= n <= depth /\ nwalk nbrs n src w.
Proof.
  intros Hw. destruct (bfs_walk_inv depth Inv_init) as [k' [F' [Hk I]]].
  apply in_map_iff in Hw as [[a b] [Ha Hb]]. simpl in Ha; subst a.
  destruct (inv_keys I _ _ Hb) as [n [Hn Hc]].
  exists (S n). split; [lia|].
  eapply chain_nwalk; [eapply inv_edges; eauto|].
  econstructor; eauto.
Qed.
End SearchFacts.

Lemma lookup_In pred w v :
  NoDup (map fst pred) -> In (w, v) pred -> lookup w pred = Some v.
Proof.
  induction pred as [|[a b] pred IH]; simpl; intros Hnd Hin; [tauto|].
  inversion Hnd as [|? ? Hni Hnd']; subst.
  destruct Hin as [Heq | Hin].
  - inversion Heq; subst. rewrite String.eqb_refl; auto.
  - destruct (String.eqb_spec a w) as [-> | Hne]; auto.
    exfalso. apply Hni. apply in_map_iff. exists (w, v); auto.
Qed.

Lemma walk_back_spec src pred :
  NoDup (map fst pred) -> ~ In src (map fst pred) ->
  forall n v, chain src pred n v -> forall fuel, n <= fuel ->
    exists l, walk_back src fuel pred v = Some l /\
              path_from (fun a b => In (a, b) pred) v l src /\
              List.length l = S n.
Proof.
  intros Hnd Hns n v Hc. induction Hc as [| n w v Hin Hc IH]; intros fuel Hle.
  - exists [src]. repeat split; [|constructor].
    destruct fuel; simpl; rewrite String.eqb_refl; auto.
  - destruct fuel as [|fuel]; [lia|].
    destruct (IH fuel) as [l [Hl [Hp Hlen]]]; [lia|].
    exists (w :: l). simpl.
    assert (Hne : (w =? src) = false).
    { apply String.eqb_neq. intros ->. apply Hns.
      apply in_map_iff. exists (src, v); auto. }
    rewrite Hne, (lookup_In _ _ _ Hnd Hin), Hl.
    repeat split; auto. econstructor; eauto.
Qed.


(** ** The engine's searches on the edge collection *)

Lemma nwalk_outbound E n u v : nwalk (outbound E) n u v -> walk E n u v.
Proof.
  induction 1 as [v | n u v w Hw IH Hvw].
  - constructor.
  - eapply walk_snoc; eauto. apply In_outbound; auto.
Qed.

Lemma walk_nwalk_outbound E n u v : walk E n u v -> nwalk (outbound E) n u v.
Proof.
  induction 1 as [v | n u v w Hw IH Hvw].
  - constructor.
  - eapply nwalk_snoc; eauto. apply In_outbound; auto.
Qed.

Lemma nwalk_inbound E n u v : nwalk (inbound E) n u v -> walk E n v u.
Proof.
  induction 1 as [v | n u v w Hw IH Hvw].
  - constructor.
  - eapply walk_cons; eauto. apply In_inbound; auto.
Qed.

(** The search either finds no path, and then there is none, or returns a
    path of [k] edges, and then no walk is shorter. *)
Lemma shortest_path_cases E s t :
  (shortest_path E s t = [] /\ forall n, ~ walk E n s t) \/
  (exists k, path_from (edge E) s (shortest_path E s t) t /\
             List.length (shortest_path E s t) = S k /\
             forall n, walk E n s t -> k <= n).
Proof.
  unfold shortest_path.
  destruct (search (outbound E) s t (S (List.length E)) [s] []) as [pred|] eqn:Hs.
  - right.
    destruct (@search_some (outbound E) s t (S (List.length E)) 0 [s] [] pred
                (Inv_init _ _)) as [k [Hc [Hmin [Hlen [Hnd [Hns He]]]]]]; auto.
    + intros n Hn; lia.
    + intros Hv. apply visited_spec in Hv as [-> | []]. simpl; auto.
    + destruct (walk_back_spec Hnd Hns Hc Hlen) as [l [Hl [Hp Hll]]].
      rewrite Hl. exists k. split; [|split].
      * apply path_from_rev in Hp.
        eapply path_from_impl; [|exact Hp]. simpl.
        intros a b Hab. apply In_outbound. eapply He; eauto.
      * rewrite length_rev; auto.
      * intros n Hw. apply Hmin. apply walk_nwalk_outbound; auto.
  - left. split; auto.
    intros n Hw. apply walk_nwalk_outbound in Hw. revert n Hw.
    apply (@search_none (outbound E) s (map eto E) t) with
      (fuel := S (List.length E)) (k := 0) (F := [s]) (pred := []); auto.
    + intros v w Hin. unfold outbound in Hin.
      apply in_map_iff in Hin as [e [He Hin]]. apply filter_In in Hin as [Hin _].
      apply in_map_iff; eauto.
    + apply Inv_init.
    + intros Hv. apply visited_spec in Hv as [-> | []]. simpl; auto.
    + intros _. rewrite length_map. simpl. lia.
Qed.

Lemma shortest_path_nil E s t : shortest_path E s t = [] <-> forall n, ~ walk E n s t.
Proof.
  destruct (shortest_path_cases E s t) as [[H1 H2] | [k [Hp [Hl Hmin]]]].
  - tauto.
  - split.
    + intros H. rewrite H in Hl. discriminate.
    + intros H. exfalso. apply path_from_walk in Hp. eapply H; eauto.
Qed.

Lemma shortest_path_self E s : shortest_path E s s = [s].
Proof.
  destruct (shortest_path_cases E s s) as [[H1 H2] | [k [Hp [Hl Hmin]]]].
  - exfalso. apply (H2 0). constructor.
  - assert (k = 0) by (specialize (Hmin 0 (walk_nil E s)); lia). subst k.
    destruct Hp as [v | u v p w Huv Hp]; auto.
    destruct Hp; simpl in Hl; discriminate.
Qed.

Lemma shortest_path_one E s t : shortest_path E s t = [s] -> s = t.
Proof.
  intros H. destruct (shortest_path_cases E s t) as [[H1 H2] | [k [Hp _]]].
  - congruence.
  - rewrite H in Hp. inversion Hp as [| ? ? ? ? ? Hp']; subst; auto. inversion Hp'.
Qed.

(** ** Adding an edge to an acyclic edge set *)

Lemma walk_add_edge E e n u v :
  walk (E ++ [e]) n u v ->
  walk E n u v \/ (reach E u (efrom e) /\ reach E (eto e) v).
Proof.
  induction 1 as [v | n u v w Hw IH [e' [Hin [Hf Ht]]]].
  - left. constructor.
  - apply in_app_iff in Hin as [Hin | [<- | []]].
    + assert (He : edge E v w) by (exists e'; auto).
      destruct IH as [IH | [IH1 [m IH2]]].
      * left. eapply walk_snoc; eauto.
      * right. split; auto. exists (S m). eapply walk_snoc; eauto.
    + subst v w. right. destruct IH as [IH | [IH1 IH2]].
      * split; [exists n; auto | exists 0; constructor].
      * split; [auto | exists 0; constructor].
Qed.

Lemma acyclic_add E e :
  acyclic E -> (forall n, ~ walk E n (eto e) (efrom e)) -> acyclic (E ++ [e]).
Proof.
  intros Ha Hno v n Hw.
  apply walk_add_edge in Hw as [Hw | [[a Ha1] [b Hb1]]].
  - eapply Ha; eauto.
  - eapply Hno. eapply walk_app; eauto.
Qed.

(** ** The ancestor traversal *)

Lemma dfs_inbound_sound E : forall depth v used u,
  In u (dfs_inbound E depth v used) ->
  exists n, 1 <= n <= depth /\ walk E n u v.
Proof.
  induction depth as [|depth IH]; simpl; intros v used u Hin; [tauto|].
  apply in_flat_map in Hin as [e [He Hin]].
  apply filter_In in He as [He Hv]. apply String.eqb_eq in Hv.
  assert (Hedge : edge E (efrom e) v) by (exists e; auto).
  destruct (existsb (String.eqb (ekey e)) used); [inversion Hin|].
  destruct Hin as [<- | Hin].
  - exists 1. split; [lia|]. eapply walk_snoc; eauto. constructor.
  - apply IH in Hin as [n [Hn Hw]]. exists (S n). split; [lia|].
    eapply walk_snoc; eauto.
Qed.

Lemma traverse_inbound_sound E opts from u :
  In u (traverse_inbound E opts from) ->
  exists n, 1 <= n <= maxDepth /\ walk E n u from.
Proof.
  destruct opts; unfold traverse_inbound; intros Hin.
  - apply in_rev in Hin. apply bfs_walk_sound in Hin as [n [Hn Hw]].
    exists n. split; auto. apply nwalk_inbound; auto.
  - eapply dfs_inbound_sound; eauto.
Qed.

(** ** RETURN DISTINCT *)

Lemma distinct_from_spec l : forall seen,
  NoDup (distinct_from seen l) /\
  forall x, In x (distinct_from seen l) -> In x l /\ ~ In x seen.
Proof.
  assert (Hex : forall x seen,
    existsb (fun y => match x, y with
                      | Some a, Some b => a =? b
                      | None, None => true
                      | _, _ => false
                      end) seen = true <-> In x seen).
  { intros x seen. rewrite existsb_exists. split.
    - intros [y [Hy He]]. destruct x, y; try discriminate; auto.
      apply String.eqb_eq in He. subst; auto.
    - intros H. exists x. split; auto. destruct x; auto. apply String.eqb_refl. }
  induction l as [|x l IH]; simpl; intros seen.
  - split; [constructor | tauto].
  - destruct (existsb _ seen) eqn:He.
    + destruct (IH seen) as [H1 H2]. split; auto.
      intros y Hy. apply H2 in Hy. tauto.
    + destruct (IH (x :: seen)) as [H1 H2].
      assert (Hx : ~ In x seen).
      { intros Hin. apply Hex in Hin. congruence. }
      split.
      * constructor; auto. intros Hin. apply H2 in Hin. simpl in Hin. tauto.
      * intros y [<- | Hy]; [tauto|]. apply H2 in Hy. simpl in Hy. tauto.
Qed.

Lemma distinct_NoDup l : NoDup (distinct l).
Proof. apply distinct_from_spec. Qed.

Lemma distinct_In l x : In x (distinct l) -> In x l.
Proof. intros H. apply distinct_from_spec in H. tauto. Qed.

(** ** The monad and the driver *)

Lemma bind_inv {St A B} (m : M St A) (k : A -> M St B) s r s' :
  bind m k s = (r, s') ->
  (exists e, m s = (inl e, s') /\ r = inl e) \/
  (exists a s1, m s = (inr a, s1) /\ k a s1 = (r, s')).
Proof.
  unfold bind. destruct (m s) as [[e | a] s1]; intros H.
  - left. inversion H; subst. eauto.
  - right. eauto.
Qed.

Lemma bind_ok {St A B} (m : M St A) (k : A -> M St B) s a s1 :
  m s = (inr a, s1) -> bind m k s = k a s1.
Proof. unfold bind. intros ->. auto. Qed.

Lemma driver_call_inv w r w' : driver_call w = (r, w') -> store w' = store w.
Proof.
  unfold driver_call. destruct (faults w) as [|[|] fs]; intros H; inversion H; auto.
Qed.

Lemma driver_call_quiet st : driver_call (quiet st) = (inr tt, quiet st).
Proof. reflexivity. Qed.

Lemma getVertex_inv d key w r w' :
  getVertex d key w = (r, w') ->
  store w' = store w /\
  forall id, r = inr id -> id = mkID (vertices d) key /\ In key (vdocs (store w)).
Proof.
  unfold getVertex, vertices_ReadDocument. intros H.
  apply bind_inv in H as [[e [H ->]] | [m [w1 [H H1]]]].
  - apply bind_inv in H as [[e' [H _]] | [[] [w1 [H H1]]]].
    + apply driver_call_inv in H. split; auto. discriminate.
    + apply driver_call_inv in H. unfold bind, get_store, ret, throw in H1.
      destruct (existsb (String.eqb key) (vdocs (store w1))); inversion H1; subst.
      split; auto. discriminate.
  - apply bind_inv in H as [[e' [H ?]] | [[] [w2 [H H2]]]]; [discriminate|].
    apply driver_call_inv in H. unfold bind, get_store, ret, throw in H2.
    destruct (existsb (String.eqb key) (vdocs (store w2))) eqn:Hex; inversion H2; subst.
    inversion H1; subst. split; auto.
    intros id Hid. inversion Hid; subst. simpl. split; auto.
    rewrite <- H. apply existsb_eqb_In; auto.
Qed.

Lemma getVertex_quiet d key st :
  getVertex d key (quiet st) =
  if existsb (String.eqb key) (vdocs st)
  then (inr (mkID (vertices d) key), quiet st)
  else (inl NotFound, quiet st).
Proof.
  unfold getVertex, vertices_ReadDocument, bind, get_store, ret, throw. simpl.
  destruct (existsb (String.eqb key) (vdocs st)); reflexivity.
Qed.

Lemma getVertex_quiet_In d key st :
  In key (vdocs st) -> getVertex d key (quiet st) = (inr (mkID (vertices d) key), quiet st).
Proof.
  intros H. rewrite getVertex_quiet. apply existsb_eqb_In in H. rewrite H. auto.
Qed.

Lemma db_Query_inv d q w r w' :
  db_Query d q w = (r, w') ->
  store w' = store w /\ forall c, r = inr c -> c = eval_query d (store w) q.
Proof.
  unfold db_Query. intros H.
  apply bind_inv in H as [[e [H ->]] | [[] [w1 [H H1]]]].
  - apply driver_call_inv in H. split; auto. discriminate.
  - apply driver_call_inv in H. unfold bind, get_store, ret in H1.
    inversion H1; subst. split; auto. intros c Hc. inversion Hc. congruence.
Qed.

Lemma db_Query_quiet d q st :
  db_Query d q (quiet st) = (inr (eval_query d st q), quiet st).
Proof. reflexivity. Qed.

Lemma cursor_ReadDocument_inv c w r w' :
  cursor_ReadDocument c w = (r, w') ->
  store w' = store w /\
  forall x, r = inr x -> x = match c with
                            | [] => (None, [])
                            | m :: c' => (Some m, c')
                            end.
Proof.
  unfold cursor_ReadDocument. intros H.
  apply bind_inv in H as [[e [H ->]] | [[] [w1 [H H1]]]].
  - apply driver_call_inv in H. split; auto. discriminate.
  - apply driver_call_inv in H. unfold ret in H1.
    destruct c; inversion H1; subst; split; auto; intros x Hx; inversion Hx; auto.
Qed.

Lemma getEdgeId_inv d s t w r w' :
  getEdgeId d s t w = (r, w') ->
  store w' = store w /\ (r = inr "" -> edge_count (edocs (store w)) s t = 0).
Proof.
  unfold getEdgeId. intros H.
  apply bind_inv in H as [[e [H ->]] | [c [w1 [H H1]]]].
  - apply db_Query_inv in H as [H _]. split; auto. discriminate.
  - apply db_Query_inv in H as [Hs Hc]. specialize (Hc c eq_refl).
    apply bind_inv in H1 as [[e [H1 ->]] | [x [w2 [H1 H2]]]].
    + apply cursor_ReadDocument_inv in H1 as [H1 _]. split; [congruence | discriminate].
    + apply cursor_ReadDocument_inv in H1 as [H1 Hx]. specialize (Hx x eq_refl).
      split.
      * destruct (fst x); unfold ret in H2; inversion H2; congruence.
      * intros Hr. subst r. unfold edge_count. simpl in Hc.
        destruct (filter _ (edocs (store w))) as [|e l]; auto.
        subst c x. simpl in H2. unfold ret in H2. inversion H2 as [[Hid Hw]].
        pose proof (mkID_nonempty (edges d) (ekey e)) as Hne.
        rewrite Hid in Hne. discriminate.
Qed.

Lemma getEdgeId_quiet d s t st :
  getEdgeId d s t (quiet st) =
  (inr match filter (fun e => (efrom e =? s) && (eto e =? t)) (edocs st) with
       | [] => ""
       | e :: _ => mkID (edges d) (ekey e)
       end, quiet st).
Proof.
  unfold getEdgeId. erewrite bind_ok by apply db_Query_quiet.
  unfold eval_query, cursor_ReadDocument, bind, ret. simpl.
  destruct (filter _ (edocs st)); reflexivity.
Qed.

Lemma collect_loop_inv c : forall acc w r w',
  cursor_loop driver_call (fun meta result => ret (result ++ [meta])) c acc w = (r, w') ->
  store w' = store w /\ forall a, r = inr a -> a = acc ++ c.
Proof.
  induction c as [|m c IH]; simpl; intros acc w r w' H.
  - apply bind_inv in H as [[e [H ->]] | [[] [w1 [H H1]]]].
    + apply driver_call_inv in H. split; auto. discriminate.
    + apply driver_call_inv in H. unfold ret in H1. inversion H1; subst.
      split; auto. intros a Ha. inversion Ha. rewrite app_nil_r; auto.
  - apply bind_inv in H as [[e [H ->]] | [[] [w1 [H H1]]]].
    + apply driver_call_inv in H. split; auto. discriminate.
    + apply driver_call_inv in H. unfold bind at 1, ret at 1 in H1.
      apply IH in H1 as [H1 H2]. split; [congruence|].
      intros a Ha. rewrite (H2 a Ha), <- app_assoc. auto.
Qed.

Lemma collect_loop_quiet c : forall acc st,
  cursor_loop driver_call (fun meta result => ret (result ++ [meta])) c acc (quiet st)
  = (inr (acc ++ c), quiet st).
Proof.
  induction c as [|m c IH]; simpl; intros acc st.
  - unfold bind, ret. simpl. rewrite app_nil_r. auto.
  - unfold bind at 1. rewrite driver_call_quiet. unfold bind at 1, ret at 1.
    rewrite IH, <- app_assoc. auto.
Qed.

Lemma getShortestPath_inv d s t w r w' :
  getShortestPath d s t w = (r, w') ->
  store w' = store w /\
  forall path, r = inr path -> path = eval_query d (store w) (QShortestPath s t).
Proof.
  unfold getShortestPath. intros H.
  apply bind_inv in H as [[e [H ->]] | [c [w1 [H H1]]]].
  - apply db_Query_inv in H as [H _]. split; auto. discriminate.
  - apply db_Query_inv in H as [Hs Hc]. specialize (Hc c eq_refl).
    apply collect_loop_inv in H1 as [H1 H2]. split; [congruence|].
    intros path Hp. rewrite (H2 path Hp). subst c. auto.
Qed.

Lemma getShortestPath_quiet d s t st :
  getShortestPath d s t (quiet st) = (inr (eval_query d st (QShortestPath s t)), quiet st).
Proof.
  unfold getShortestPath. erewrite bind_ok by apply db_Query_quiet.
  apply collect_loop_quiet.
Qed.

(** ** Where errors come from *)

Lemma liftW_inv {T A} (m : M World A) w (s : T) r w' s' :
  liftW m (w, s) = (r, (w', s')) -> m w = (r, w') /\ s' = s.
Proof.
  unfold liftW. simpl. destruct (m w) as [r0 w0]. intros H. inversion H; auto.
Qed.

Lemma errs_bind {St A B} (m : M St A) (k : A -> M St B) (P : error -> Prop) :
  errs m P -> (forall a, errs (k a) P) -> errs (bind m k) P.
Proof.
  intros Hm Hk s e s' H.
  apply bind_inv in H as [[e' [H He]] | [a [s1 [H H1]]]].
  - inversion He; subst. eapply Hm; eauto.
  - eapply Hk; eauto.
Qed.

Lemma errs_ret {St A} (a : A) (P : error -> Prop) : errs (@ret St A a) P.
Proof. intros s e s' H. inversion H. Qed.

Lemma errs_weaken {St A} (m : M St A) (P Q : error -> Prop) :
  (forall e, P e -> Q e) -> errs m P -> errs m Q.
Proof. intros HPQ Hm s e s' H. eapply HPQ, Hm; eauto. Qed.

Lemma errs_liftW {T A} (m : M World A) (P : error -> Prop) :
  errs m P -> errs (@liftW T A m) P.
Proof.
  intros Hm [w t] e [w' t'] H. apply liftW_inv in H as [H _]. eapply Hm; eauto.
Qed.

Lemma errs_driver_call : errs driver_call driver_error.
Proof.
  intros w e w' H. unfold driver_call in H.
  destruct (faults w) as [|[|] fs]; inversion H; subst. right; auto.
Qed.

Lemma errs_cursor_loop {St A} (read : M St unit) (body : DocumentMeta -> A -> M St A)
  (P : error -> Prop) :
  errs read P -> (forall m a, errs (body m a) P) ->
  forall c a, errs (cursor_loop read body c a) P.
Proof.
  intros Hr Hb. induction c as [|m c IH]; intros a; simpl.
  - apply errs_bind; auto. intros _. apply errs_ret.
  - apply errs_bind; auto. intros _. apply errs_bind; auto.
Qed.

Lemma errs_getVertex d key : errs (getVertex d key) driver_error.
Proof.
  unfold getVertex, vertices_ReadDocument.
  apply errs_bind; [|intros; apply errs_ret].
  apply errs_bind; [apply errs_driver_call|]. intros _.
  apply errs_bind; [intros s e s' H; inversion H|]. intros st.
  destruct (existsb (String.eqb key) (vdocs st)); [apply errs_ret|].
  intros s e s' H. inversion H. left; auto.
Qed.

Lemma errs_db_Query d q : errs (db_Query d q) driver_error.
Proof.
  unfold db_Query. apply errs_bind; [apply errs_driver_call|]. intros _.
  apply errs_bind; [intros s e s' H; inversion H|]. intros st. apply errs_ret.
Qed.

Lemma errs_getEdgeId d s t : errs (getEdgeId d s t) driver_error.
Proof.
  unfold getEdgeId. apply errs_bind; [apply errs_db_Query|]. intros c.
  apply errs_bind.
  - unfold cursor_ReadDocument. apply errs_bind; [apply errs_driver_call|].
    intros _. destruct c; apply errs_ret.
  - intros r. destruct (fst r); apply errs_ret.
Qed.

Lemma errs_getShortestPath d s t : errs (getShortestPath d s t) driver_error.
Proof.
  unfold getShortestPath. apply errs_bind; [apply errs_db_Query|]. intros c.
  apply errs_cursor_loop; [apply errs_driver_call|]. intros m a. apply errs_ret.
Qed.

Lemma errs_edges_CreateDocument d e : errs (edges_CreateDocument d e) driver_error.
Proof.
  unfold edges_CreateDocument. apply errs_bind; [apply errs_driver_call|]. intros _.
  apply errs_bind; [intros s e' s' H; inversion H|]. intros st.
  apply errs_bind; [intros s e' s' H; inversion H|]. intros _. apply errs_ret.
Qed.

(** ** AddEdge *)

Lemma edges_CreateDocument_inv d e w r w' :
  edges_CreateDocument d e w = (r, w') ->
  (store w' = store w /\ exists err, r = inl err) \/
  (store w' = {| vdocs := vdocs (store w);
                 edocs := edocs (store w) ++
                          [{| ekey := gen_key (List.length (edocs (store w)));
                              efrom := From e; eto := To e |}] |} /\
   exists m, r = inr m).
Proof.
  unfold edges_CreateDocument. intros H.
  apply bind_inv in H as [[err [H ->]] | [[] [w1 [H H1]]]].
  - apply driver_call_inv in H. left. eauto.
  - apply driver_call_inv in H. right.
    unfold bind, get_store, put_store, ret in H1. simpl in H1.
    inversion H1; subst. simpl. rewrite H. eauto.
Qed.

(** Whatever the faults, a call either fails and leaves the store as it
    was, or has passed every check and appended the edge. *)
Lemma AddEdge_inv d src dst w r w' :
  AddEdge d src dst w = (r, w') ->
  (store w' = store w /\ exists e, r = inl e) \/
  (r = inr tt /\ store w' = with_edge d src dst (store w) /\
   In src (vdocs (store w)) /\ In dst (vdocs (store w)) /\
   edge_count (edocs (store w)) (mkID (vertices d) src) (mkID (vertices d) dst) = 0 /\
   forall n, ~ walk (edocs (store w)) n (mkID (vertices d) dst) (mkID (vertices d) src)).
Proof.
  unfold AddEdge. intros H.
  apply bind_inv in H as [[e [H ->]] | [srcId [w1 [H1 H]]]].
  { apply getVertex_inv in H as [H _]. left. eauto. }
  apply getVertex_inv in H1 as [Hs1 Hsrc]. destruct (Hsrc _ eq_refl) as [-> Hin1].
  apply bind_inv in H as [[e [H ->]] | [dstId [w2 [H2 H]]]].
  { apply getVertex_inv in H as [H _]. left. split; [congruence | eauto]. }
  apply getVertex_inv in H2 as [Hs2 Hdst]. destruct (Hdst _ eq_refl) as [-> Hin2].
  apply bind_inv in H as [[e [H ->]] | [id [w3 [H3 H]]]].
  { apply getEdgeId_inv in H as [H _]. left. split; [congruence | eauto]. }
  apply getEdgeId_inv in H3 as [Hs3 Hdup].
  destruct (id =? "") eqn:Hid; simpl in H.
  2: { unfold throw in H. inversion H; subst. left. split; [congruence | eauto]. }
  apply String.eqb_eq in Hid. subst id. specialize (Hdup eq_refl).
  apply bind_inv in H as [[e [H ->]] | [path [w4 [H4 H]]]].
  { apply getShortestPath_inv in H as [H _]. left. split; [congruence | eauto]. }
  apply getShortestPath_inv in H4 as [Hs4 Hpath]. specialize (Hpath _ eq_refl).
  destruct path as [|m path].
  2: { left. destruct (List.length (m :: path) =? 1)%nat; unfold throw in H;
       inversion H; subst; split; try congruence; eauto. }
  apply bind_inv in H as [[e [H ->]] | [m [w5 [H5 H]]]].
  - apply edges_CreateDocument_inv in H as [[H _] | [_ [m Hm]]]; [|discriminate].
    left. split; [congruence | eauto].
  - unfold ret in H. inversion H; subst.
    apply edges_CreateDocument_inv in H5 as [[_ [err He]] | [H5 _]]; [discriminate|].
    right. simpl in H5. split; auto.
    assert (Hw : store w4 = store w) by congruence.
    rewrite Hw in H5. rewrite Hs3, Hs2, Hs1 in *.
    repeat split; auto.
    simpl in Hpath. symmetry in Hpath. apply map_eq_nil in Hpath.
    apply shortest_path_nil. congruence.
Qed.

Lemma AddEdge_quiet d src dst st :
  In src (vdocs st) -> In dst (vdocs st) ->
  AddEdge d src dst (quiet st) =
  match filter (fun e => (efrom e =? mkID (vertices d) src) &&
                         (eto e =? mkID (vertices d) dst)) (edocs st) with
  | _ :: _ => (inl DuplicateEdge, quiet st)
  | [] =>
      match shortest_path (edocs st) (mkID (vertices d) dst) (mkID (vertices d) src) with
      | [] => (inr tt, quiet (with_edge d src dst st))
      | [_] => (inl SelfLoop, quiet st)
      | _ :: _ :: _ => (inl CycleDetected, quiet st)
      end
  end.
Proof.
  intros Hs Hd. unfold AddEdge.
  erewrite bind_ok by (apply getVertex_quiet_In; auto).
  erewrite bind_ok by (apply getVertex_quiet_In; auto).
  erewrite bind_ok by apply getEdgeId_quiet.
  destruct (filter _ (edocs st)) as [|e l].
  - simpl. erewrite bind_ok by apply getShortestPath_quiet.
    unfold eval_query.
    destruct (shortest_path (edocs st) (mkID (vertices d) dst) (mkID (vertices d) src))
      as [|a [|b p]]; reflexivity.
  - rewrite mkID_nonempty. reflexivity.
Qed.

Lemma AddEdge_loop_inv d src dst w w' :
  AddEdge d src dst w = (inl CycleDetected, w') ->
  reach (edocs (store w)) (mkID (vertices d) dst) (mkID (vertices d) src).
Proof.
  unfold AddEdge. intros H.
  apply bind_inv in H as [[e [H He]] | [srcId [w1 [H1 H]]]].
  { inversion He; subst. apply errs_getVertex in H. destruct H; discriminate. }
  apply getVertex_inv in H1 as [Hs1 Hsrc]. destruct (Hsrc _ eq_refl) as [-> _].
  apply bind_inv in H as [[e [H He]] | [dstId [w2 [H2 H]]]].
  { inversion He; subst. apply errs_getVertex in H. destruct H; discriminate. }
  apply getVertex_inv in H2 as [Hs2 Hdst]. destruct (Hdst _ eq_refl) as [-> _].
  apply bind_inv in H as [[e [H He]] | [id [w3 [H3 H]]]].
  { inversion He; subst. apply errs_getEdgeId in H. destruct H; discriminate. }
  apply getEdgeId_inv in H3 as [Hs3 _].
  destruct (negb (id =? "")); [inversion H|].
  apply bind_inv in H as [[e [H He]] | [path [w4 [H4 H]]]].
  { inversion He; subst. apply errs_getShortestPath in H. destruct H; discriminate. }
  apply getShortestPath_inv in H4 as [Hs4 Hpath]. specialize (Hpath _ eq_refl).
  destruct path as [|m path].
  - apply bind_inv in H as [[e [H He]] | [m [w5 [H5 H]]]].
    + inversion He; subst. apply errs_edges_CreateDocument in H.
      destruct H; discriminate.
    + inversion H.
  - simpl in Hpath. rewrite Hs3, Hs2, Hs1 in Hpath.
    destruct (shortest_path_cases (edocs (store w)) (mkID (vertices d) dst)
                (mkID (vertices d) src)) as [[Hnil _] | [k [Hp _]]].
    + rewrite Hnil in Hpath. discriminate.
    + eexists. eapply path_from_walk; eauto.
Qed.

Lemma call_AddEdge_inv d src dst fs st r st' :
  call_AddEdge d src dst fs st = (r, st') ->
  (st' = st /\ exists e, r = inl e) \/
  (r = inr tt /\ st' = with_edge d src dst st /\
   In src (vdocs st) /\ In dst (vdocs st) /\
   edge_count (edocs st) (mkID (vertices d) src) (mkID (vertices d) dst) = 0 /\
   forall n, ~ walk (edocs st) n (mkID (vertices d) dst) (mkID (vertices d) src)).
Proof.
  unfold call_AddEdge.
  destruct (AddEdge d src dst {| store := st; faults := fs |}) as [r0 w'] eqn:H.
  intros Hc. inversion Hc; subst. apply AddEdge_inv in H. simpl in H. exact H.
Qed.

(** An invariant of single calls is an invariant of sequences of calls. *)
Lemma add_edges_ind (P : Store -> Prop) d :
  (forall src dst st, P st -> In src (vdocs st) -> In dst (vdocs st) ->
     edge_count (edocs st) (mkID (vertices d) src) (mkID (vertices d) dst) = 0 ->
     (forall n, ~ walk (edocs st) n (mkID (vertices d) dst) (mkID (vertices d) src)) ->
     P (with_edge d src dst st)) ->
  forall calls st, P st -> P (add_edges d calls st).
Proof.
  intros Hstep. induction calls as [|[[src dst] fs] calls IH]; simpl; intros st HP; auto.
  apply IH. destruct (call_AddEdge d src dst fs st) as [r st'] eqn:Hc. simpl.
  apply call_AddEdge_inv in Hc as [[-> _] | [_ [-> [H1 [H2 [H3 H4]]]]]]; auto.
Qed.


Lemma edge_count_pos E s t :
  0 < edge_count E s t <-> exists e, In e E /\ efrom e = s /\ eto e = t.
Proof.
  unfold edge_count. split.
  - destruct (filter _ E) as [|e l] eqn:Hf; simpl; [lia|]. intros _.
    assert (Hin : In e (filter (fun e => (efrom e =? s) && (eto e =? t)) E))
      by (rewrite Hf; simpl; auto).
    apply filter_In in Hin as [Hin He]. apply andb_true_iff in He as [H1 H2].
    apply String.eqb_eq in H1, H2. eauto.
  - intros [e [Hin [H1 H2]]].
    assert (Hf : In e (filter (fun e => (efrom e =? s) && (eto e =? t)) E)).
    { apply filter_In. split; auto. subst. rewrite !String.eqb_refl. auto. }
    destruct (filter _ E); simpl in *; [tauto | lia].
Qed.

Lemma add_edges_vdocs d calls st : vdocs (add_edges d calls st) = vdocs st.
Proof.
  apply (add_edges_ind (fun st' => vdocs st' = vdocs st)); auto.
Qed.


Lemma add_edges_well_formed d calls st :
  well_formed d st -> well_formed d (add_edges d calls st).
Proof.
  apply (add_edges_ind (well_formed d)).
  intros src dst st' Hwf Hs Hd _ _ e Hin. simpl in Hin.
  apply in_app_iff in Hin as [Hin | [<- | []]]; simpl.
  - apply Hwf; auto.
  - split; [exists src | exists dst]; auto.
Qed.

Lemma acyclic_nil : acyclic [].
Proof.
  intros v n Hw. inversion Hw as [| ? ? ? ? _ [e [[] _]]].
Qed.


(** * Properties of the operations *)

(** ** Edge insertion *)

(** C1.  Acyclicity invariant: starting from an acyclic edge set, after any
    sequence of [AddEdge] calls, failed or successful and whatever the
    store failures they meet, the stored edges contain no directed cycle of
    length at least 1. *)
Theorem AddEdge_preserves_acyclic d calls st :
  acyclic (edocs st) -> acyclic (edocs (add_edges d calls st)).
Proof.
  apply (add_edges_ind (fun st' => acyclic (edocs st'))).
  intros src dst st' Ha _ _ _ Hno. simpl.
  apply acyclic_add; auto.
Qed.

Lemma AddEdge_preserves_acyclic_witness :
  acyclic (edocs abc) /\
  acyclic (edocs (add_edges dag0 [("A", "B", []); ("B", "C", []); ("C", "A", [])] abc)).
Proof.
  split; [exact acyclic_nil|].
  apply (@AddEdge_preserves_acyclic dag0
           [("A", "B", []); ("B", "C", []); ("C", "A", [])] abc).
  exact acyclic_nil.
Defined.

(** C10.  [AddEdge] is atomic on error: whenever a call returns an error
    (missing vertex, duplicate edge, self loop, loop, or a store failure at
    any of its requests), the store is left as it was. *)
Theorem AddEdge_error_leaves_store d src dst w e w' :
  AddEdge d src dst w = (inl e, w') -> store w' = store w.
Proof.
  intros H. apply AddEdge_inv in H as [[H _] | [H _]]; [auto | discriminate].
Qed.

Lemma AddEdge_error_leaves_store_witness :
  AddEdge dag0 "A" "B"
    {| store := abc; faults := [false; false; false; false; false; false; true] |}
  = (inl StoreFailure, quiet abc) /\
  store (quiet abc) = abc.
Proof.
  split; [vm_compute; reflexivity|].
  apply (@AddEdge_error_leaves_store dag0 "A" "B"
           {| store := abc; faults := [false; false; false; false; false; false; true] |}
           StoreFailure (quiet abc)).
  vm_compute. reflexivity.
Defined.






(** C2.  Cycle rejection: for stored, distinct vertices [src] and [dst]
    with no edge [(src, dst)] stored, and no store failure, [AddEdge(src,
    dst)] fails with the loop error exactly when a directed path leads from
    [dst] to [src], and then the store is unchanged.  Under store failures
    the loop error is still returned only when such a path exists, and
    never with an insertion. *)
Theorem AddEdge_cycle_rejection d st src dst :
  In src (vdocs st) -> In dst (vdocs st) -> src <> dst ->
  edge_count (edocs st) (mkID (vertices d) src) (mkID (vertices d) dst) = 0 ->
  (fst (AddEdge d src dst (quiet st)) = inl CycleDetected <->
   reach (edocs st) (mkID (vertices d) dst) (mkID (vertices d) src)) /\
  (reach (edocs st) (mkID (vertices d) dst) (mkID (vertices d) src) ->
   AddEdge d src dst (quiet st) = (inl CycleDetected, quiet st)) /\
  (forall fs w',
     AddEdge d src dst {| store := st; faults := fs |} = (inl CycleDetected, w') ->
     reach (edocs st) (mkID (vertices d) dst) (mkID (vertices d) src) /\ store w' = st).
Proof.
  intros Hs Hd Hne Hz.
  assert (Hany : forall fs w',
     AddEdge d src dst {| store := st; faults := fs |} = (inl CycleDetected, w') ->
     reach (edocs st) (mkID (vertices d) dst) (mkID (vertices d) src) /\ store w' = st).
  { intros fs w' H. split.
    - apply AddEdge_loop_inv in H. exact H.
    - apply AddEdge_inv in H as [[H _] | [H _]]; [exact H | discriminate]. }
  rewrite (@AddEdge_quiet d src dst st Hs Hd). unfold edge_count in Hz.
  destruct (filter _ (edocs st)); [|discriminate].
  destruct (shortest_path_cases (edocs st) (mkID (vertices d) dst) (mkID (vertices d) src))
    as [[Hnil Hno] | [k [Hp [Hl Hmin]]]].
  - rewrite Hnil. simpl. split; [|split; auto].
    + split; [discriminate|]. intros [n Hw]. exfalso. eapply Hno; eauto.
    + intros [n Hw]. exfalso. eapply Hno; eauto.
  - assert (Hr : reach (edocs st) (mkID (vertices d) dst) (mkID (vertices d) src)).
    { eexists. eapply path_from_walk; eauto. }
    destruct (shortest_path (edocs st) (mkID (vertices d) dst) (mkID (vertices d) src))
      as [|a [|b p]] eqn:Hsp.
    + discriminate.
    + exfalso. apply Hne. inversion Hp as [| ? ? ? ? ? Hp']; subst.
      * symmetry. eapply mkID_inj; eauto.
      * inversion Hp'.
    + simpl. tauto.
Qed.

Lemma AddEdge_cycle_rejection_witness :
  In "C" (vdocs abc) /\ In "A" (vdocs abc) /\ "C" <> "A" /\
  AddEdge dag0 "C" "A" (quiet (add_edges dag0 [("A", "B", []); ("B", "C", [])] abc))
  = (inl CycleDetected, quiet (add_edges dag0 [("A", "B", []); ("B", "C", [])] abc)).
Proof.
  split; [simpl; auto|]. split; [simpl; auto|]. split; [discriminate|].
  apply (@AddEdge_cycle_rejection dag0
           (add_edges dag0 [("A", "B", []); ("B", "C", [])] abc) "C" "A").
  - vm_compute. auto.
  - vm_compute. auto.
  - discriminate.
  - vm_compute. reflexivity.
  - exists 2. apply walk_snoc with (v := mkID (vertices dag0) "B").
    + apply walk_snoc with (v := mkID (vertices dag0) "A"); [constructor|].
      eexists. split; [left; reflexivity | split; reflexivity].
    + eexists. split; [right; left; reflexivity | split; reflexivity].
Defined.

(** ** GetShortestPath *)

Lemma vertex_doc_id d st k :
  In k (vdocs st) -> vertex_doc d st (mkID (vertices d) k) = Some k.
Proof.
  intros Hk. unfold vertex_doc.
  destruct (find _ (vdocs st)) as [k'|] eqn:Hf.
  - apply find_some in Hf as [_ He]. apply String.eqb_eq, mkID_inj in He. congruence.
  - apply (find_none _ _ Hf) in Hk. rewrite String.eqb_refl in Hk. discriminate.
Qed.

Lemma vertex_doc_Some d st id k :
  vertex_doc d st id = Some k -> In k (vdocs st) /\ id = mkID (vertices d) k.
Proof.
  unfold vertex_doc. intros Hf. apply find_some in Hf as [Hin He].
  apply String.eqb_eq in He. auto.
Qed.

(** In a well-formed store a path from a stored vertex runs over stored
    vertices, and the engine returns their documents. *)
Lemma path_keys d st :
  well_formed d st ->
  forall u sp v, path_from (edge (edocs st)) u sp v ->
  forall ku, In ku (vdocs st) -> u = mkID (vertices d) ku ->
  exists p kv,
    In kv (vdocs st) /\ v = mkID (vertices d) kv /\
    path_from (fun a b => edge (edocs st) (mkID (vertices d) a) (mkID (vertices d) b)) ku p kv /\
    map Key (map (fun id => doc_meta d (vertex_doc d st id)) sp) = p.
Proof.
  intros Hwf u sp v Hp.
  induction Hp as [u | u x sp v Hux Hp IH]; intros ku Hku ->.
  - exists [ku], ku. split; [auto|]. split; [auto|]. split; [constructor|].
    simpl. rewrite vertex_doc_id; auto.
  - destruct Hux as [e [Hin [Hf Ht]]].
    destruct (Hwf e Hin) as [_ [kx [Hkx Hx]]].
    destruct (IH kx Hkx) as [p [kv [Hkv [Hv [Hpp Hm]]]]]; [congruence|].
    exists (ku :: p), kv. split; [auto|]. split; [auto|]. split.
    + apply path_cons with (v := kx); auto.
      exists e. repeat split; auto.
    + simpl. rewrite vertex_doc_id by auto. simpl. f_equal. exact Hm.
Qed.

Lemma GetShortestPath_quiet d src dst st :
  In src (vdocs st) -> In dst (vdocs st) ->
  GetShortestPath d src dst (quiet st) =
  (inr (map Key (eval_query d st (QShortestPath (mkID (vertices d) src)
                                                (mkID (vertices d) dst)))),
   quiet st).
Proof.
  intros Hs Hd. unfold GetShortestPath.
  erewrite bind_ok by (apply getVertex_quiet_In; auto).
  erewrite bind_ok by (apply getVertex_quiet_In; auto).
  erewrite bind_ok by apply getShortestPath_quiet.
  reflexivity.
Qed.

(** C3.  Shortest-path correctness: in a store whose edges join stored
    vertices and without store failure, [GetShortestPath(src, dst)] for
    stored vertices returns the empty result exactly when [dst] is
    unreachable from [src]; any other result is a vertex sequence that
    starts at [src], ends at [dst], follows stored edges forward, and has no
    more hops than any walk from [src] to [dst]. *)
Theorem GetShortestPath_correct d st src dst :
  well_formed d st -> In src (vdocs st) -> In dst (vdocs st) ->
  exists p,
    GetShortestPath d src dst (quiet st) = (inr p, quiet st) /\
    (p = [] <-> ~ reach (edocs st) (mkID (vertices d) src) (mkID (vertices d) dst)) /\
    (p <> [] ->
     hd_error p = Some src /\ last p src = dst /\
     is_path (edocs st) (map (mkID (vertices d)) p) /\
     forall n, walk (edocs st) n (mkID (vertices d) src) (mkID (vertices d) dst) ->
               List.length p <= S n).
Proof.
  intros Hwf Hs Hd. eexists. split; [apply GetShortestPath_quiet; auto|].
  unfold eval_query.
  destruct (shortest_path_cases (edocs st) (mkID (vertices d) src) (mkID (vertices d) dst))
    as [[Hnil Hno] | [k [Hp [Hl Hmin]]]].
  - rewrite Hnil. simpl. split.
    + split; auto. intros _ [n Hw]. eapply Hno; eauto.
    + intros H. congruence.
  - destruct (path_keys Hwf Hp src Hs eq_refl) as [p [kv [Hkv [Hv [Hpp Hm]]]]].
    apply mkID_inj in Hv. subst kv. rewrite Hm.
    assert (Hlen : List.length p = S k).
    { rewrite <- Hm, !length_map. auto. }
    split.
    + split.
      * intros Hnil. rewrite Hnil in Hlen. discriminate.
      * intros Hnr. exfalso. apply Hnr. eexists. eapply path_from_walk; eauto.
    + intros _. split; [eapply path_from_hd; eauto|].
      split; [eapply path_from_last; eauto|].
      split; [eapply path_from_is_path, path_from_map; eauto|].
      intros n Hw. specialize (Hmin n Hw). lia.
Qed.

Lemma diamond_well_formed : well_formed dag0 diamond.
Proof.
  apply add_edges_well_formed. intros e [].
Qed.

Lemma GetShortestPath_correct_witness :
  GetShortestPath dag0 "A" "D" (quiet diamond) = (inr ["A"; "B"; "D"], quiet diamond) /\
  GetShortestPath dag0 "D" "A" (quiet diamond) = (inr [], quiet diamond) /\
  exists p,
    GetShortestPath dag0 "A" "D" (quiet diamond) = (inr p, quiet diamond) /\
    (p = [] <-> ~ reach (edocs diamond) (mkID (vertices dag0) "A") (mkID (vertices dag0) "D")) /\
    (p <> [] ->
     hd_error p = Some "A" /\ last p "A" = "D" /\
     is_path (edocs diamond) (map (mkID (vertices dag0)) p) /\
     forall n, walk (edocs diamond) n (mkID (vertices dag0) "A") (mkID (vertices dag0) "D") ->
               List.length p <= S n).
Proof.
  split; [vm_compute; reflexivity|]. split; [vm_compute; reflexivity|].
  apply (@GetShortestPath_correct dag0 diamond "A" "D").
  - exact diamond_well_formed.
  - vm_compute. auto.
  - vm_compute. auto 6.
Defined.

(** ** WalkAncestors *)

Lemma liftW_quiet {T A} (m : M World A) st (s : T) a :
  m (quiet st) = (inr a, quiet st) -> liftW m (quiet st, s) = (inr a, (quiet st, s)).
Proof. unfold liftW. simpl. intros ->. auto. Qed.

(** The visitor is called on a prefix of the cursor, in order. *)
Lemma walk_loop_log T (fn : WalkFunc T) c : forall w t log r w' t' log',
  cursor_loop (liftW driver_call) (fun meta _ => apply_fn (logging fn) (Key meta)) c tt
              (w, (t, log)) = (r, (w', (t', log'))) ->
  store w' = store w /\
  exists done rest, c = done ++ rest /\ log' = log ++ map Key done.
Proof.
  induction c as [|m c IH]; simpl; intros w t log r w' t' log' H.
  - apply bind_inv in H as [[e [H ->]] | [[] [[w1 s1] [H H1]]]].
    + apply liftW_inv in H as [H Hs]. apply driver_call_inv in H.
      inversion Hs; subst. split; auto. exists [], []. simpl. rewrite app_nil_r. auto.
    + apply liftW_inv in H as [H Hs]. apply driver_call_inv in H. subst s1.
      unfold ret in H1. inversion H1; subst.
      split; auto. exists [], []. simpl. rewrite app_nil_r. auto.
  - apply bind_inv in H as [[e [H ->]] | [[] [[w1 s1] [H H1]]]].
    + apply liftW_inv in H as [H Hs]. apply driver_call_inv in H.
      inversion Hs; subst. split; auto. exists [], (m :: c). simpl.
      rewrite app_nil_r. auto.
    + apply liftW_inv in H as [H Hs]. apply driver_call_inv in H. subst s1.
      apply bind_inv in H1 as [[e [H1 ->]] | [[] [[w2 [t2 log2]] [H1 H2]]]].
      * unfold apply_fn, logging in H1. simpl in H1.
        destruct (fn (Key m) t) as [[e'|] t1]; inversion H1; subst.
        split; auto. exists [m], c. auto.
      * unfold apply_fn, logging in H1. simpl in H1.
        destruct (fn (Key m) t) as [[e'|] t1]; inversion H1; subst.
        apply IH in H2 as [H2 [done [rest [Hc Hl]]]].
        split; [congruence|]. exists (m :: done), rest. subst c. split; auto.
        rewrite Hl, <- app_assoc. auto.
Qed.

Lemma walk_loop_quiet T (fn : WalkFunc T) :
  (forall k s, fst (fn k s) = None) ->
  forall c st t log,
  exists t',
    cursor_loop (liftW driver_call) (fun meta _ => apply_fn (logging fn) (Key meta)) c tt
                (quiet st, (t, log))
    = (inr tt, (quiet st, (t', log ++ map Key c))).
Proof.
  intros Hfn. induction c as [|m c IH]; simpl; intros st t log.
  - exists t. rewrite app_nil_r. reflexivity.
  - erewrite bind_ok by (apply liftW_quiet, driver_call_quiet).
    unfold bind at 1, apply_fn at 1, logging at 1. simpl.
    specialize (Hfn (Key m) t). destruct (fn (Key m) t) as [[e|] t1]; simpl in Hfn;
      [discriminate|].
    destruct (IH st t1 (log ++ [Key m])) as [t' Ht']. exists t'.
    rewrite Ht', <- app_assoc. reflexivity.
Qed.

Lemma WalkAncestors_log d key T (fn : WalkFunc T) dfs w t log r w' t' log' :
  WalkAncestors d key (logging fn) dfs (w, (t, log)) = (r, (w', (t', log'))) ->
  store w' = store w /\
  exists done rest,
    eval_query d (store w)
      (QAncestors (mkID (vertices d) key) (if dfs then DfsNone else BfsGlobal))
    = done ++ rest /\
    log' = log ++ map Key done.
Proof.
  unfold WalkAncestors. intros H.
  apply bind_inv in H as [[e [H ->]] | [id [[w1 s1] [H H1]]]].
  { apply liftW_inv in H as [H Hs]. apply getVertex_inv in H as [H _].
    inversion Hs; subst. split; auto. exists []. eexists. simpl. rewrite app_nil_r. eauto. }
  apply liftW_inv in H as [H Hs]. apply getVertex_inv in H as [Hw1 Hid].
  destruct (Hid _ eq_refl) as [-> _]. subst s1.
  apply bind_inv in H1 as [[e [H1 ->]] | [c [[w2 s2] [H1 H2]]]].
  { apply liftW_inv in H1 as [H1 Hs]. apply db_Query_inv in H1 as [H1 _].
    inversion Hs; subst. split; [congruence|].
    exists []. eexists. simpl. rewrite app_nil_r. eauto. }
  apply liftW_inv in H1 as [H1 Hs]. apply db_Query_inv in H1 as [Hw2 Hc].
  specialize (Hc _ eq_refl). subst s2.
  apply walk_loop_log in H2 as [H2 [done [rest [Hd Hl]]]].
  split; [congruence|]. exists done, rest. split; auto. rewrite <- Hd, Hc, Hw1. auto.
Qed.

Lemma WalkAncestors_quiet d key T (fn : WalkFunc T) dfs st t log :
  In key (vdocs st) -> (forall k s, fst (fn k s) = None) ->
  exists t',
    WalkAncestors d key (logging fn) dfs (quiet st, (t, log))
    = (inr tt,
       (quiet st,
        (t', log ++ map Key (eval_query d st
                               (QAncestors (mkID (vertices d) key)
                                           (if dfs then DfsNone else BfsGlobal)))))).
Proof.
  intros Hk Hfn. unfold WalkAncestors.
  erewrite bind_ok by (apply liftW_quiet, getVertex_quiet_In; auto).
  erewrite bind_ok by (apply liftW_quiet, db_Query_quiet).
  apply walk_loop_quiet; auto.
Qed.

Lemma errs_WalkAncestors d key T (fn : WalkFunc T) dfs :
  errs (WalkAncestors d key fn dfs)
       (fun e => driver_error e \/ exists k s, fst (fn k s) = Some e).
Proof.
  unfold WalkAncestors.
  apply errs_bind.
  { apply errs_liftW. eapply errs_weaken; [|apply errs_getVertex]. auto. }
  intros id. apply errs_bind.
  { apply errs_liftW. eapply errs_weaken; [|apply errs_db_Query]. auto. }
  intros c. apply errs_cursor_loop.
  - apply errs_liftW. eapply errs_weaken; [|apply errs_driver_call]. auto.
  - intros m a s e s' H. unfold apply_fn in H. right.
    exists (Key m), (snd s).
    destruct (fn (Key m) (snd s)) as [[e'|] t1]; inversion H; subst. reflexivity.
Qed.

Lemma ancestors_keys_sound d st from opts k :
  In k (map Key (eval_query d st (QAncestors from opts))) ->
  exists id n, 1 <= n <= maxDepth /\ walk (edocs st) n id from /\
               k = Key (doc_meta d (vertex_doc d st id)).
Proof.
  unfold eval_query. rewrite map_map. intros H.
  apply in_map_iff in H as [doc [Hk Hdoc]].
  apply distinct_In, in_map_iff in Hdoc as [id [Hid Hin]].
  apply traverse_inbound_sound in Hin as [n [Hn Hw]].
  exists id, n. subst. auto.
Qed.

Lemma NoDup_map_inj_in {A B} (f : A -> B) (l : list A) :
  (forall x y, In x l -> In y l -> f x = f y -> x = y) ->
  NoDup l -> NoDup (map f l).
Proof.
  induction l as [|a l IH]; simpl; intros Hinj Hnd; [constructor|].
  inversion Hnd as [|? ? Hni Hnd']; subst. constructor.
  - intros Hin. apply in_map_iff in Hin as [y [Hy Hin]].
    assert (y = a) by (apply Hinj; auto). subst y. tauto.
  - apply IH; auto.
Qed.

Lemma ancestors_keys_NoDup d st from opts :
  ~ In "" (vdocs st) ->
  NoDup (map Key (eval_query d st (QAncestors from opts))).
Proof.
  intros Hne. unfold eval_query. rewrite map_map.
  apply NoDup_map_inj_in; [|apply distinct_NoDup].
  assert (Hsome : forall k, In (Some k)
            (distinct (map (vertex_doc d st) (traverse_inbound (edocs st) opts from))) ->
            k <> "").
  { intros k Hin. apply distinct_In, in_map_iff in Hin as [id [Hid _]].
    apply vertex_doc_Some in Hid as [Hin _]. intros ->. tauto. }
  intros [a|] [b|] Hx Hy Heq; simpl in Heq; auto.
  - congruence.
  - exfalso. apply (Hsome a); auto.
  - exfalso. apply (Hsome b); auto.
Qed.

Lemma WalkAncestors_log_NoDup d st fs key T (fn : WalkFunc T) dfs t r w' t' log :
  ~ In "" (vdocs st) ->
  WalkAncestors d key (logging fn) dfs ({| store := st; faults := fs |}, (t, []))
  = (r, (w', (t', log))) ->
  NoDup log.
Proof.
  intros Hne H. apply WalkAncestors_log in H as [_ [done [rest [Hq Hl]]]].
  simpl in Hl. subst log.
  pose proof (@ancestors_keys_NoDup d st (mkID (vertices d) key)
                (if dfs then DfsNone else BfsGlobal) Hne) as Hnd.
  simpl store in Hq. rewrite Hq, map_app in Hnd.
  eapply NoDup_app_remove_r; eauto.
Qed.

(** ** The chain *)

Lemma tally_inj i : forall j, tally i = tally j -> i = j.
Proof.
  induction i as [|i IH]; intros [|j] H; simpl in H; try discriminate; auto.
  inversion H. f_equal. auto.
Qed.

Lemma cid_inj i j : cid i = cid j -> i = j.
Proof.
  unfold cid, ckey. intros H. apply mkID_inj in H. inversion H. apply tally_inj; auto.
Qed.

Lemma chain_edge N u v :
  edge (edocs (chain_store N)) u v <-> exists i, i < N /\ u = cid (S i) /\ v = cid i.
Proof.
  unfold edge, chain_store. split.
  - intros [e [Hin [Hf Ht]]]. cbn [edocs] in Hin.
    apply in_map_iff in Hin as [i [He Hi]]. apply in_seq in Hi.
    exists i. subst e. simpl in *. repeat split; auto; lia.
  - intros [i [Hi [-> ->]]].
    exists {| ekey := gen_key i; efrom := cid (S i); eto := cid i |}.
    split; [|split; reflexivity].
    cbn [edocs]. apply in_map_iff. exists i. split; auto. apply in_seq. lia.
Qed.

Lemma chain_walk_down N : forall i, i <= N -> walk (edocs (chain_store N)) i (cid i) (cid 0).
Proof.
  induction i as [|i IH]; intros Hi.
  - constructor.
  - apply walk_cons with (v := cid i).
    + apply chain_edge. exists i. repeat split; auto.
    + apply IH. lia.
Qed.

Lemma chain_walk_unique N n u v :
  walk (edocs (chain_store N)) n u v ->
  forall j, u = cid j -> n <= j /\ v = cid (j - n).
Proof.
  induction 1 as [v | n u v w Hw IH Hvw]; intros j Hu.
  - rewrite Nat.sub_0_r. split; [lia | auto].
  - destruct (IH j Hu) as [Hn Hv].
    apply chain_edge in Hvw as [i [Hi [Hv' ->]]].
    rewrite Hv in Hv'. apply cid_inj in Hv'.
    split; [lia|]. f_equal. lia.
Qed.

Lemma chain_vertex N i : i <= N -> In (ckey i) (vdocs (chain_store N)).
Proof.
  intros Hi. unfold chain_store. cbn [vdocs].
  apply in_map_iff. exists i. split; auto. apply in_seq. lia.
Qed.

(** C4 (as the code has it).  The depth ceiling truncates: the ancestor
    query is bounded to depths 1 to 10000 by the query text, and nothing in
    [WalkAncestors] turns a deeper graph into an error.  Every vertex the
    walk visits lies within [maxDepth] inbound hops of the start; an error
    it returns comes from the driver or from the visitor; and with no store
    failure and a visitor that does not fail, the walk from a stored vertex
    returns no error, whatever the depth of the graph. *)
Theorem WalkAncestors_depth_truncates d st key T (fn : WalkFunc T) t dfs :
  In key (vdocs st) ->
  (forall fs r w' t' log,
     WalkAncestors d key (logging fn) dfs ({| store := st; faults := fs |}, (t, []))
     = (r, (w', (t', log))) ->
     (forall e, r = inl e -> driver_error e \/ exists k s, fst (fn k s) = Some e) /\
     (forall k, In k log ->
        exists id n, 1 <= n <= maxDepth /\
                     walk (edocs st) n id (mkID (vertices d) key) /\
                     k = Key (doc_meta d (vertex_doc d st id)))) /\
  ((forall k s, fst (fn k s) = None) ->
   exists t' log,
     WalkAncestors d key (logging fn) dfs (quiet st, (t, []))
     = (inr tt, (quiet st, (t', log)))).
Proof.
  intros Hk. split.
  - intros fs r w' t' log H. split.
    + intros e ->. apply errs_WalkAncestors in H as [H | [k [s H]]]; auto.
      right. exists k, (fst s). unfold logging in H.
      destruct (fn k (fst s)) as [r1 t1]. exact H.
    + intros k Hin. apply WalkAncestors_log in H as [_ [done [rest [Hq Hl]]]].
      cbn [store] in Hq. cbn [app] in Hl. subst log.
      eapply ancestors_keys_sound. rewrite Hq, map_app. apply in_app_iff. eauto.
  - intros Hfn.
    destruct (@WalkAncestors_quiet d key T fn dfs st t [] Hk Hfn) as [t' H].
    exists t'. eexists. exact H.
Qed.

Lemma WalkAncestors_depth_truncates_witness :
  In "D" (vdocs diamond) /\
  exists t' log,
    WalkAncestors dag0 "D" (logging visit_ok) false (quiet diamond, (tt, []))
    = (inr tt, (quiet diamond, (t', log))).
Proof.
  assert (H : In "D" (vdocs diamond)) by (vm_compute; auto 6).
  split; [exact H|].
  apply (proj2 (@WalkAncestors_depth_truncates dag0 diamond "D" unit visit_ok tt false H)).
  intros k s. reflexivity.
Defined.

(** C4 as stated fails: on the chain of [maxDepth + 1] edges the vertex
    [c_(maxDepth+1)] is an ancestor of [c_0], [maxDepth + 1] hops away, and
    the walk from [c_0], breadth-first or depth-first, returns no error and
    does not visit it. *)
Lemma WalkAncestors_depth_counterexample :
  walk (edocs (chain_store (S maxDepth))) (S maxDepth) (cid (S maxDepth)) (cid 0) /\
  forall dfs, exists log,
    WalkAncestors dag0 (ckey 0) (logging visit_ok) dfs
                  (quiet (chain_store (S maxDepth)), (tt, []))
    = (inr tt, (quiet (chain_store (S maxDepth)), (tt, log))) /\
    ~ In (ckey (S maxDepth)) log.
Proof.
  split; [apply chain_walk_down; auto|].
  intros dfs.
  destruct (@WalkAncestors_quiet dag0 (ckey 0) unit visit_ok dfs
              (chain_store (S maxDepth)) tt []) as [[] H].
  { apply chain_vertex. lia. }
  { intros k s. reflexivity. }
  eexists. split; [exact H|].
  intros Hin. cbn [app] in Hin.
  apply ancestors_keys_sound in Hin as [id [n [Hn [Hw Hk]]]].
  destruct (vertex_doc dag0 (chain_store (S maxDepth)) id) as [k|] eqn:Hv.
  - apply vertex_doc_Some in Hv as [_ ->]. cbn [doc_meta Key] in Hk. subst k.
    destruct (@chain_walk_unique (S maxDepth) n _ _ Hw (S maxDepth) eq_refl) as [_ H0].
    change (mkID (vertices dag0) (ckey 0)) with (cid 0) in H0.
    apply cid_inj in H0. lia.
  - cbn [doc_meta Key] in Hk. discriminate.
Qed.

(** C5 (as the code has it).  Depth-first walks are deduplicated too: the
    traversal runs without vertex uniqueness, but the query returns
    [DISTINCT] vertices, so in a store whose keys are not empty the visitor
    is called at most once for a vertex, whatever the faults and whatever
    the visitor does. *)
Theorem WalkAncestors_dfs_visits_once d st fs key T (fn : WalkFunc T) t r w' t' log :
  ~ In "" (vdocs st) ->
  WalkAncestors d key (logging fn) true ({| store := st; faults := fs |}, (t, []))
  = (r, (w', (t', log))) ->
  NoDup log.
Proof.
  intros Hne H. eapply WalkAncestors_log_NoDup; eauto.
Qed.

Lemma WalkAncestors_dfs_visits_once_witness :
  ~ In "" (vdocs diamond) /\
  WalkAncestors dag0 "D" (logging visit_ok) true (quiet diamond, (tt, []))
  = (inr tt, (quiet diamond, (tt, ["B"; "A"; "C"]))) /\
  NoDup ["B"; "A"; "C"].
Proof.
  assert (H0 : ~ In "" (vdocs diamond)).
  { vm_compute. intros [H | [H | [H | [H | []]]]]; discriminate. }
  assert (H1 : WalkAncestors dag0 "D" (logging visit_ok) true (quiet diamond, (tt, []))
               = (inr tt, (quiet diamond, (tt, ["B"; "A"; "C"]))))
    by (vm_compute; reflexivity).
  split; [exact H0|]. split; [exact H1|].
  exact (@WalkAncestors_dfs_visits_once dag0 diamond [] "D" unit visit_ok tt
           (inr tt) (quiet diamond) tt ["B"; "A"; "C"] H0 H1).
Defined.

(** C5 as stated fails: in the diamond walked depth-first from [D] the
    traversal reaches [A] twice, once by each branch, and the visitor is
    called for [A] once; and no store with non-empty keys, start vertex,
    visitor and fault schedule makes the visitor be called twice for a
    vertex. *)
Lemma WalkAncestors_dfs_counterexample :
  traverse_inbound (edocs diamond) DfsNone (mkID (vertices dag0) "D")
  = ["vertices/B"; "vertices/A"; "vertices/C"; "vertices/A"] /\
  WalkAncestors dag0 "D" (logging visit_ok) true (quiet diamond, (tt, []))
  = (inr tt, (quiet diamond, (tt, ["B"; "A"; "C"]))) /\
  ~ exists d st fs key T (fn : WalkFunc T) t r w' t' log k,
      ~ In "" (vdocs st) /\
      WalkAncestors d key (logging fn) true ({| store := st; faults := fs |}, (t, []))
      = (r, (w', (t', log))) /\
      1 < count_occ string_dec log k.
Proof.
  split; [vm_compute; reflexivity|]. split; [vm_compute; reflexivity|].
  intros (d & st & fs & key & T & fn & t & r & w' & t' & log & k & Hne & H & Hc).
  apply WalkAncestors_log_NoDup in H; auto.
  rewrite (NoDup_count_occ string_dec) in H. specialize (H k). lia.
Qed.

(** ** The root walker *)

Lemma read_quiet c st :
  cursor_ReadDocument c (quiet st) =
  (inr match c with
       | [] => (None, [])
       | m :: c' => (Some m, c')
       end, quiet st).
Proof. destruct c; reflexivity. Qed.

Lemma read_ok c st fs :
  cursor_ReadDocument c {| store := st; faults := false :: fs |} =
  (inr match c with
       | [] => (None, [])
       | m :: c' => (Some m, c')
       end, {| store := st; faults := fs |}).
Proof. destruct c; reflexivity. Qed.

Lemma read_fail c st fs :
  cursor_ReadDocument c {| store := st; faults := true :: fs |} =
  (inl StoreFailure, {| store := st; faults := fs |}).
Proof. destruct c; reflexivity. Qed.

Lemma roots_loop_quiet st : forall c fuel,
  List.length c < fuel ->
  roots_loop fuel c [] (quiet st) = (map (fun m => SendRoot (Key m)) c, quiet st).
Proof.
  induction c as [|m c IH]; intros [|fuel] Hf; simpl in Hf; try lia.
  - reflexivity.
  - cbn [roots_loop]. rewrite read_quiet. cbn [tl]. rewrite IH by lia. reflexivity.
Qed.

Lemma roots_loop_one_fault st c2 : forall c1 fuel,
  List.length c1 + List.length c2 + 1 < fuel ->
  roots_loop fuel (c1 ++ c2) []
    {| store := st; faults := repeat false (List.length c1) ++ [true] |}
  = (map (fun m => SendRoot (Key m)) c1 ++
     SendError StoreFailure :: map (fun m => SendRoot (Key m)) c2, quiet st).
Proof.
  induction c1 as [|m c1 IH]; intros [|fuel] Hf; simpl in Hf; try lia.
  - cbn [roots_loop List.length repeat app]. rewrite read_fail.
    change {| store := st; faults := [] |} with (quiet st).
    rewrite roots_loop_quiet by lia. reflexivity.
  - cbn [roots_loop List.length repeat app]. rewrite read_ok. cbn [tl].
    rewrite IH by lia. reflexivity.
Qed.

Lemma roots_loop_faults st : forall fuel c fs,
  List.length c + List.length fs < fuel ->
  exists evs fs',
    roots_loop fuel c [] {| store := st; faults := fs |}
    = (evs, {| store := st; faults := fs' |}) /\
    sent_roots evs = map Key c /\
    forall e, In (SendError e) evs -> e = StoreFailure.
Proof.
  induction fuel as [|fuel IH]; intros c fs Hf; [lia|].
  cbn [roots_loop]. destruct fs as [|[|] fs].
  - change {| store := st; faults := [] |} with (quiet st). rewrite read_quiet.
    destruct c as [|m c].
    + exists [], []. repeat split; auto. intros e [].
    + cbn [tl]. destruct (IH c []) as [evs [fs' [H [Hr He]]]]; [simpl in *; lia|].
      change {| store := st; faults := [] |} with (quiet st) in H. rewrite H.
      exists (SendRoot (Key m) :: evs), fs'. repeat split; simpl; [congruence|].
      intros e [He' | He']; [discriminate | auto].
  - rewrite read_fail.
    destruct (IH c fs) as [evs [fs' [H [Hr He]]]]; [simpl in *; lia|].
    rewrite H. exists (SendError StoreFailure :: evs), fs'. repeat split; auto.
    intros e [He' | He']; [congruence | auto].
  - rewrite read_ok. destruct c as [|m c].
    + exists [], fs. repeat split; auto. intros e [].
    + cbn [tl]. destruct (IH c fs) as [evs [fs' [H [Hr He]]]]; [simpl in *; lia|].
      rewrite H. exists (SendRoot (Key m) :: evs), fs'. repeat split; simpl; [congruence|].
      intros e [He' | He']; [discriminate | auto].
Qed.

(** C8.  Error policy of the root walker.  A failure to start the query is
    fatal: the error is sent on the error channel, both channels are closed
    and no identifier is produced.  A failed read in mid-enumeration is not:
    the error is sent on the error channel and the enumeration goes on with
    the next root, so that, with no cancellation, every root is still
    delivered before the channels are closed. *)
Theorem GetRootsWalker_error_policy d st fs signals roots1 roots2 :
  eval_query d st QRoots = roots1 ++ roots2 ->
  GetRootsWalker d signals {| store := st; faults := true :: fs |}
  = ([SendError StoreFailure; CloseRoots; CloseErrors], {| store := st; faults := fs |}) /\
  GetRootsWalker d []
    {| store := st; faults := false :: repeat false (List.length roots1) ++ [true] |}
  = (map (fun m => SendRoot (Key m)) roots1 ++
     SendError StoreFailure :: map (fun m => SendRoot (Key m)) roots2 ++
     [CloseRoots; CloseErrors], quiet st) /\
  exists evs w',
    GetRootsWalker d [] {| store := st; faults := false :: fs |}
    = (evs ++ [CloseRoots; CloseErrors], w') /\
    sent_roots evs = map Key (roots1 ++ roots2) /\
    forall e, In (SendError e) evs -> e = StoreFailure.
Proof.
  intros Hq. split; [reflexivity|]. split.
  - unfold GetRootsWalker, db_Query, bind, get_store, ret.
    cbn [driver_call faults store]. rewrite Hq.
    rewrite roots_loop_one_fault.
    + rewrite <- app_assoc. reflexivity.
    + rewrite !length_app, repeat_length. simpl. lia.
  - unfold GetRootsWalker, db_Query, bind, get_store, ret.
    cbn [driver_call faults store]. rewrite Hq.
    destruct (@roots_loop_faults st
                (S (List.length (roots1 ++ roots2) + List.length fs)) (roots1 ++ roots2) fs)
      as [evs [fs' [H [Hr He]]]]; [lia|].
    rewrite H. eauto.
Qed.

Lemma GetRootsWalker_error_policy_witness :
  eval_query dag0 abc QRoots
  = [{| Key := "A"; ID := "vertices/A" |}] ++
    [{| Key := "B"; ID := "vertices/B" |}; {| Key := "C"; ID := "vertices/C" |}] /\
  GetRootsWalker dag0 [] {| store := abc; faults := [true] |}
  = ([SendError StoreFailure; CloseRoots; CloseErrors], quiet abc) /\
  GetRootsWalker dag0 [] {| store := abc; faults := [false; false; true] |}
  = ([SendRoot "A"; SendError StoreFailure; SendRoot "B"; SendRoot "C";
      CloseRoots; CloseErrors], quiet abc).
Proof.
  assert (H : eval_query dag0 abc QRoots
              = [{| Key := "A"; ID := "vertices/A" |}] ++
                [{| Key := "B"; ID := "vertices/B" |}; {| Key := "C"; ID := "vertices/C" |}])
    by reflexivity.
  destruct (@GetRootsWalker_error_policy dag0 abc [] [] _ _ H) as [H1 [H2 _]].
  split; [exact H|]. split; [exact H1 | exact H2].
Defined.

(** ** Callers side by side *)

Lemma run_steps_Returned d src dst r : forall n w,
  run_steps d src dst n (Returned r) w = (Returned r, w).
Proof. induction n as [|n IH]; intros w; simpl; auto. Qed.









(** * Further properties of the operations *)

(** ** Store and faults through an operation *)



Lemma keeps_throw {St A} (wo : St -> World) (e : error) : keeps wo (@throw St A e).
Proof. intros s r s' H. inversion H; auto. Qed.


















(** *** The helpers *)





















(** ** Missing vertices, lookups and counts *)


Lemma IsEdge_quiet d src dst st :
  In src (vdocs st) -> In dst (vdocs st) ->
  IsEdge d src dst (quiet st) =
  (inr match filter (fun e => (efrom e =? mkID (vertices d) src) &&
                              (eto e =? mkID (vertices d) dst)) (edocs st) with
       | [] => false
       | _ :: _ => true
       end, quiet st).
Proof.
  intros Hs Hd. unfold IsEdge.
  erewrite bind_ok by (apply getVertex_quiet_In; auto).
  erewrite bind_ok by (apply getVertex_quiet_In; auto).
  erewrite bind_ok by apply getEdgeId_quiet.
  destruct (filter _ (edocs st)) as [|e l].
  - reflexivity.
  - rewrite mkID_nonempty. reflexivity.
Qed.



(** X5.  [IsEdge] is the lookup of the edge: for stored vertices and without
    store failure it returns [true] exactly when an edge from [src] to [dst]
    is stored. *)
Theorem IsEdge_lookup d st src dst :
  In src (vdocs st) -> In dst (vdocs st) ->
  exists b,
    IsEdge d src dst (quiet st) = (inr b, quiet st) /\
    (b = true <-> edge (edocs st) (mkID (vertices d) src) (mkID (vertices d) dst)).
Proof.
  intros Hs Hd. eexists. split; [apply IsEdge_quiet; auto|].
  unfold edge. rewrite <- edge_count_pos. unfold edge_count.
  destruct (filter _ (edocs st)); simpl; split; intros H; auto; try discriminate; lia.
Qed.

Lemma IsEdge_lookup_witness :
  In "A" (vdocs diamond) /\ In "B" (vdocs diamond) /\
  IsEdge dag0 "A" "B" (quiet diamond) = (inr true, quiet diamond) /\
  IsEdge dag0 "B" "A" (quiet diamond) = (inr false, quiet diamond) /\
  exists b,
    IsEdge dag0 "A" "B" (quiet diamond) = (inr b, quiet diamond) /\
    (b = true <-> edge (edocs diamond) (mkID (vertices dag0) "A") (mkID (vertices dag0) "B")).
Proof.
  assert (Ha : In "A" (vdocs diamond)) by (vm_compute; auto).
  assert (Hb : In "B" (vdocs diamond)) by (vm_compute; auto).
  split; [exact Ha|]. split; [exact Hb|].
  split; [vm_compute; reflexivity|]. split; [vm_compute; reflexivity|].
  exact (@IsEdge_lookup dag0 diamond "A" "B" Ha Hb).
Defined.



(** ** After an insertion *)

Lemma walk_one E e : In e E -> walk E 1 (efrom e) (eto e).
Proof.
  intros H. apply walk_snoc with (v := efrom e); [constructor|]. exists e. auto.
Qed.

(** An inserted edge stays, and its reverse direction stays closed. *)
Lemma after_AddEdge d src dst w w1 calls :
  AddEdge d src dst w = (inr tt, w1) ->
  vdocs (add_edges d calls (store w1)) = vdocs (store w) /\
  In src (vdocs (store w)) /\ In dst (vdocs (store w)) /\
  mkID (vertices d) src <> mkID (vertices d) dst /\
  edge (edocs (add_edges d calls (store w1)))
       (mkID (vertices d) src) (mkID (vertices d) dst) /\
  forall n, ~ walk (edocs (add_edges d calls (store w1))) n
                   (mkID (vertices d) dst) (mkID (vertices d) src).
Proof.
  intros H.
  apply AddEdge_inv in H as [[_ [e He]] | [_ [Hw1 [Hs [Hd [_ Hno]]]]]]; [discriminate|].
  assert (Hne : mkID (vertices d) src <> mkID (vertices d) dst).
  { intros Heq. apply (Hno 0). rewrite Heq. constructor. }
  split; [|split; [auto|split; [auto|split; [auto|]]]].
  - rewrite add_edges_vdocs, Hw1. reflexivity.
  - apply (add_edges_ind
             (fun st' => edge (edocs st') (mkID (vertices d) src) (mkID (vertices d) dst) /\
                forall n, ~ walk (edocs st') n (mkID (vertices d) dst)
                                 (mkID (vertices d) src))).
    + intros s t st' [He Hnw'] _ _ _ Hnw. simpl. split.
      * destruct He as [e [Hin Hft]]. exists e. split; auto. apply in_app_iff; auto.
      * intros n Hw. apply walk_add_edge in Hw as [Hw | [[a Ha] [b Hb]]]; simpl in *.
        -- eapply Hnw'; eauto.
        -- destruct He as [e [Hin [Hf Ht]]].
           apply (Hnw (b + 1 + a)). eapply walk_app; [|exact Ha].
           eapply walk_app; [exact Hb|]. rewrite <- Hf, <- Ht. apply walk_one; auto.
    + rewrite Hw1. simpl. split.
      * eexists. split; [apply in_app_iff; right; left; reflexivity|]. simpl. auto.
      * intros n Hw. apply walk_add_edge in Hw as [Hw | [[a Ha] _]]; simpl in *;
          eapply Hno; eauto.
Qed.

(** X7.  Insert and look up: once [AddEdge(src, dst)] has returned no
    error, and after any further calls of [AddEdge], [IsEdge(src, dst)]
    returns [true] and [IsEdge(dst, src)] returns [false]. *)
Theorem AddEdge_then_IsEdge d src dst w w1 calls :
  AddEdge d src dst w = (inr tt, w1) ->
  IsEdge d src dst (quiet (add_edges d calls (store w1)))
  = (inr true, quiet (add_edges d calls (store w1))) /\
  IsEdge d dst src (quiet (add_edges d calls (store w1)))
  = (inr false, quiet (add_edges d calls (store w1))).
Proof.
  intros H.
  destruct (@after_AddEdge d src dst w w1 calls H) as [Hv [Hs [Hd [_ [He Hno]]]]].
  rewrite <- Hv in Hs, Hd.
  rewrite !IsEdge_quiet by auto. split.
  - apply edge_count_pos in He. unfold edge_count in He.
    destruct (filter _ (edocs _)); simpl in He; [lia | reflexivity].
  - destruct (filter (fun e => (efrom e =? mkID (vertices d) dst) &&
                               (eto e =? mkID (vertices d) src)) (edocs _))
      as [|e l] eqn:Hf; [reflexivity|].
    exfalso. apply (Hno 1).
    assert (Hin : In e (filter (fun e => (efrom e =? mkID (vertices d) dst) &&
                                         (eto e =? mkID (vertices d) src))
                               (edocs (add_edges d calls (store w1)))))
      by (rewrite Hf; simpl; auto).
    apply filter_In in Hin as [Hin Hb]. apply andb_true_iff in Hb as [H1 H2].
    apply String.eqb_eq in H1, H2. rewrite <- H1, <- H2. apply walk_one; auto.
Qed.

Lemma AddEdge_then_IsEdge_witness :
  AddEdge dag0 "A" "B" (quiet abc) = (inr tt, quiet (with_edge dag0 "A" "B" abc)) /\
  IsEdge dag0 "A" "B" (quiet (add_edges dag0 [("B", "A", []); ("B", "C", [])]
                                        (with_edge dag0 "A" "B" abc)))
  = (inr true, quiet (add_edges dag0 [("B", "A", []); ("B", "C", [])]
                                (with_edge dag0 "A" "B" abc))) /\
  IsEdge dag0 "B" "A" (quiet (add_edges dag0 [("B", "A", []); ("B", "C", [])]
                                        (with_edge dag0 "A" "B" abc)))
  = (inr false, quiet (add_edges dag0 [("B", "A", []); ("B", "C", [])]
                                 (with_edge dag0 "A" "B" abc))).
Proof.
  assert (H : AddEdge dag0 "A" "B" (quiet abc)
              = (inr tt, quiet (with_edge dag0 "A" "B" abc)))
    by (vm_compute; reflexivity).
  split; [exact H|].
  exact (@AddEdge_then_IsEdge dag0 "A" "B" (quiet abc) _ [("B", "A", []); ("B", "C", [])] H).
Defined.

Lemma count_quiet (f : Store -> nat) st :
  (driver_call ;;; st0 <- get_store ;; ret (f st0)) (quiet st) = (inr (f st), quiet st).
Proof. reflexivity. Qed.

(** X8.  Counts across an insertion: whatever the store failures, a call of
    [AddEdge] leaves [GetOrder] as it was, and [GetSize] afterwards is one
    more when the call returned no error and the same when it returned an
    error. *)
Theorem AddEdge_counts d src dst w r w' :
  AddEdge d src dst w = (r, w') ->
  fst (GetOrder (quiet (store w'))) = fst (GetOrder (quiet (store w))) /\
  exists n,
    fst (GetSize (quiet (store w))) = inr n /\
    fst (GetSize (quiet (store w'))) = inr match r with
                                           | inr _ => S n
                                           | inl _ => n
                                           end.
Proof.
  intros H. unfold GetOrder, GetSize, vertices_Count, edges_Count.
  rewrite !count_quiet. simpl.
  apply AddEdge_inv in H as [[Hs [e ->]] | [-> [Hs _]]]; rewrite Hs.
  - split; auto. eexists. split; reflexivity.
  - split; auto. eexists. split; [reflexivity|].
    simpl. rewrite length_app. simpl. f_equal. lia.
Qed.

Lemma AddEdge_counts_witness :
  AddEdge dag0 "A" "B" (quiet abc) = (inr tt, quiet (with_edge dag0 "A" "B" abc)) /\
  fst (GetOrder (quiet (with_edge dag0 "A" "B" abc))) = inr 3 /\
  fst (GetSize (quiet abc)) = inr 0 /\
  fst (GetSize (quiet (with_edge dag0 "A" "B" abc))) = inr 1.
Proof.
  assert (H : AddEdge dag0 "A" "B" (quiet abc)
              = (inr tt, quiet (with_edge dag0 "A" "B" abc)))
    by (vm_compute; reflexivity).
  destruct (@AddEdge_counts dag0 "A" "B" _ _ _ H) as [H1 [n [H2 H3]]].
  split; [exact H|]. split; [exact H1|].
  assert (Hn : n = 0) by (vm_compute in H2; inversion H2; reflexivity).
  subst n. split; [exact H2 | exact H3].
Defined.

(** X9.  [AddEdge] only appends: after any sequence of calls, whatever the
    store failures, the vertices are the same, the edges stored before are
    still there in the same order, and every edge added joins the ids of two
    distinct stored vertices; so a store whose edges join stored vertices
    stays one. *)
Theorem AddEdge_only_appends d calls st :
  vdocs (add_edges d calls st) = vdocs st /\
  (exists added,
     edocs (add_edges d calls st) = edocs st ++ added /\
     forall e, In e added ->
       exists src dst, In src (vdocs st) /\ In dst (vdocs st) /\ src <> dst /\
                       efrom e = mkID (vertices d) src /\ eto e = mkID (vertices d) dst) /\
  (well_formed d st -> well_formed d (add_edges d calls st)).
Proof.
  assert (HP : vdocs (add_edges d calls st) = vdocs st /\
    exists added,
     edocs (add_edges d calls st) = edocs st ++ added /\
     forall e, In e added ->
       exists src dst, In src (vdocs st) /\ In dst (vdocs st) /\ src <> dst /\
                       efrom e = mkID (vertices d) src /\ eto e = mkID (vertices d) dst).
  { apply (add_edges_ind (fun st' => vdocs st' = vdocs st /\
      exists added,
        edocs st' = edocs st ++ added /\
        forall e, In e added ->
          exists src dst, In src (vdocs st) /\ In dst (vdocs st) /\ src <> dst /\
                          efrom e = mkID (vertices d) src /\ eto e = mkID (vertices d) dst)).
    - intros s t st' [Hv [added [He Ha]]] Hs Ht _ Hnw. simpl. split; [auto|].
      eexists (added ++ [_]). split; [rewrite He, <- app_assoc; reflexivity|].
      intros e Hin. apply in_app_iff in Hin as [Hin | [<- | []]]; auto.
      exists s, t. rewrite <- Hv. repeat split; auto.
      intros ->. apply (Hnw 0). constructor.
    - split; auto. exists []. rewrite app_nil_r. split; auto. intros e []. }
  destruct HP as [Hv [added [He Ha]]].
  split; [auto|]. split; [eauto|].
  intros Hwf e Hin. rewrite Hv, He in *. apply in_app_iff in Hin as [Hin | Hin].
  - apply Hwf; auto.
  - destruct (Ha e Hin) as [s [t [Hs [Ht [_ [Hf Hto]]]]]]. split; eauto.
Qed.

(** ** Shortest paths at the edges *)

Lemma GetShortestPath_ids d st src dst p :
  In src (vdocs st) -> In dst (vdocs st) ->
  Forall (fun k => In k (vdocs st)) p ->
  shortest_path (edocs st) (mkID (vertices d) src) (mkID (vertices d) dst)
  = map (mkID (vertices d)) p ->
  GetShortestPath d src dst (quiet st) = (inr p, quiet st).
Proof.
  intros Hs Hd Hp Hsp. rewrite GetShortestPath_quiet by auto.
  unfold eval_query. rewrite Hsp, !map_map.
  assert (Hm : map (fun x => Key (doc_meta d (vertex_doc d st (mkID (vertices d) x)))) p = p).
  { clear Hsp. induction Hp as [|k p Hk Hp IH]; simpl; auto.
    rewrite vertex_doc_id by auto. simpl. f_equal. auto. }
  rewrite Hm. reflexivity.
Qed.

(** X10.  A vertex reaches itself: for a stored vertex and without store
    failure, [GetShortestPath(x, x)] is the one-vertex path, whatever the
    edges. *)
Theorem GetShortestPath_self d st x :
  In x (vdocs st) -> GetShortestPath d x x (quiet st) = (inr [x], quiet st).
Proof.
  intros Hx. apply GetShortestPath_ids; auto.
  apply shortest_path_self.
Qed.

Lemma GetShortestPath_self_witness :
  In "B" (vdocs diamond) /\
  GetShortestPath dag0 "B" "B" (quiet diamond) = (inr ["B"], quiet diamond).
Proof.
  assert (H : In "B" (vdocs diamond)) by (vm_compute; auto).
  split; [exact H|]. exact (@GetShortestPath_self dag0 diamond "B" H).
Defined.

Lemma shortest_path_edge E u v :
  u <> v -> edge E u v -> shortest_path E u v = [u; v].
Proof.
  intros Hne [e [Hin [Hf Ht]]].
  assert (Hw : walk E 1 u v) by (subst; apply walk_one; auto).
  destruct (shortest_path_cases E u v) as [[_ Hnone] | [k [Hp [Hl Hmin]]]].
  - exfalso. eapply Hnone; eauto.
  - specialize (Hmin 1 Hw).
    remember (shortest_path E u v) as sp eqn:Hsp. clear Hsp.
    destruct Hp as [x | x y p z Hxy Hp]; [tauto|].
    destruct Hp as [y | y y' p z Hyy Hp]; [reflexivity|].
    simpl in Hl. destruct Hp; simpl in Hl; lia.
Qed.

(** X11.  The new edge is the shortest path: once [AddEdge(src, dst)] has
    returned no error, and after any further calls of [AddEdge],
    [GetShortestPath(src, dst)] is [src, dst] and [GetShortestPath(dst,
    src)] finds no path. *)
Theorem GetShortestPath_after_AddEdge d src dst w w1 calls :
  AddEdge d src dst w = (inr tt, w1) ->
  GetShortestPath d src dst (quiet (add_edges d calls (store w1)))
  = (inr [src; dst], quiet (add_edges d calls (store w1))) /\
  GetShortestPath d dst src (quiet (add_edges d calls (store w1)))
  = (inr [], quiet (add_edges d calls (store w1))).
Proof.
  intros H.
  destruct (@after_AddEdge d src dst w w1 calls H) as [Hv [Hs [Hd [Hne [He Hno]]]]].
  rewrite <- Hv in Hs, Hd. split.
  - apply GetShortestPath_ids; auto. apply shortest_path_edge; auto.
  - apply GetShortestPath_ids; auto. apply shortest_path_nil. exact Hno.
Qed.

Lemma GetShortestPath_after_AddEdge_witness :
  AddEdge dag0 "A" "D" (quiet diamond) = (inr tt, quiet (with_edge dag0 "A" "D" diamond)) /\
  GetShortestPath dag0 "A" "D"
    (quiet (add_edges dag0 [("D", "A", [])] (with_edge dag0 "A" "D" diamond)))
  = (inr ["A"; "D"],
     quiet (add_edges dag0 [("D", "A", [])] (with_edge dag0 "A" "D" diamond))) /\
  GetShortestPath dag0 "D" "A"
    (quiet (add_edges dag0 [("D", "A", [])] (with_edge dag0 "A" "D" diamond)))
  = (inr [],
     quiet (add_edges dag0 [("D", "A", [])] (with_edge dag0 "A" "D" diamond))).
Proof.
  assert (H : AddEdge dag0 "A" "D" (quiet diamond)
              = (inr tt, quiet (with_edge dag0 "A" "D" diamond)))
    by (vm_compute; reflexivity).
  split; [exact H|].
  exact (@GetShortestPath_after_AddEdge dag0 "A" "D" (quiet diamond) _ [("D", "A", [])] H).
Defined.

(** ** Roots and leaves *)

Lemma map_Key_doc_meta d l : map Key (map (fun k => doc_meta d (Some k)) l) = l.
Proof. induction l as [|k l IH]; simpl; f_equal; auto. Qed.

Lemma GetRoots_quiet d st :
  GetRoots d (quiet st) =
  (inr (filter (fun k => match inbound (edocs st) (mkID (vertices d) k) with
                         | [] => true
                         | _ :: _ => false
                         end) (vdocs st)), quiet st).
Proof.
  unfold GetRoots, getRoots.
  erewrite bind_ok; [|erewrite bind_ok by apply db_Query_quiet; apply collect_loop_quiet].
  unfold ret. cbn [app eval_query]. rewrite map_Key_doc_meta. reflexivity.
Qed.

Lemma GetLeaves_quiet d st :
  GetLeaves d (quiet st) =
  (inr (filter (fun k => match outbound (edocs st) (mkID (vertices d) k) with
                         | [] => true
                         | _ :: _ => false
                         end) (vdocs st)), quiet st).
Proof.
  unfold GetLeaves, getLeaves.
  erewrite bind_ok; [|erewrite bind_ok by apply db_Query_quiet; apply collect_loop_quiet].
  unfold ret. cbn [app eval_query]. rewrite map_Key_doc_meta. reflexivity.
Qed.

Lemma nil_test {A} (l : list A) :
  match l with [] => true | _ :: _ => false end = true <-> forall x, ~ In x l.
Proof.
  destruct l as [|a l]; simpl; split; auto.
  - discriminate.
  - intros H. exfalso. apply (H a). auto.
Qed.

(** X12.  Roots and leaves: without store failure [GetRoots] returns the
    stored vertices that no stored edge enters and [GetLeaves] those that no
    stored edge leaves, each in the order of the vertex collection; with no
    edge stored both are all the vertices. *)
Theorem GetRoots_GetLeaves_spec d st :
  exists roots leaves,
    GetRoots d (quiet st) = (inr roots, quiet st) /\
    GetLeaves d (quiet st) = (inr leaves, quiet st) /\
    (forall k, In k roots <->
               In k (vdocs st) /\ forall u, ~ edge (edocs st) u (mkID (vertices d) k)) /\
    (forall k, In k leaves <->
               In k (vdocs st) /\ forall v, ~ edge (edocs st) (mkID (vertices d) k) v) /\
    (exists keep, roots = filter keep (vdocs st)) /\
    (exists keep, leaves = filter keep (vdocs st)) /\
    (edocs st = [] -> roots = vdocs st /\ leaves = vdocs st).
Proof.
  do 2 eexists. split; [apply GetRoots_quiet|]. split; [apply GetLeaves_quiet|].
  split; [|split; [|split; [|split]]].
  - intros k. rewrite filter_In, nil_test.
    split; intros [Hk H]; split; auto; intros u Hu; apply (H u); apply In_inbound; auto.
  - intros k. rewrite filter_In, nil_test.
    split; intros [Hk H]; split; auto; intros u Hu; apply (H u); apply In_outbound; auto.
  - eexists. reflexivity.
  - eexists. reflexivity.
  - intros He. rewrite He. simpl. split; induction (vdocs st); simpl; f_equal; auto.
Qed.

Lemma filter_andb {A} (p q : A -> bool) l :
  filter (fun x => p x && q x) l = filter q (filter p l).
Proof.
  induction l as [|a l IH]; simpl; auto.
  destruct (p a); simpl; [destruct (q a)|]; rewrite IH; auto.
Qed.

Lemma mkID_eqb c a b : (mkID c a =? mkID c b) = (a =? b).
Proof.
  destruct (String.eqb_spec a b) as [-> | Hne].
  - apply String.eqb_refl.
  - apply String.eqb_neq. intros H. apply mkID_inj in H. tauto.
Qed.

(** X13.  Roots and leaves across an insertion: when [AddEdge(src, dst)]
    returns no error, [GetRoots] afterwards is [GetRoots] before without
    [dst], and [GetLeaves] afterwards is [GetLeaves] before without [src]. *)
Theorem roots_leaves_after_AddEdge d src dst w w1 :
  AddEdge d src dst w = (inr tt, w1) ->
  exists roots leaves,
    GetRoots d (quiet (store w)) = (inr roots, quiet (store w)) /\
    GetLeaves d (quiet (store w)) = (inr leaves, quiet (store w)) /\
    GetRoots d (quiet (store w1))
    = (inr (filter (fun k => negb (k =? dst)) roots), quiet (store w1)) /\
    GetLeaves d (quiet (store w1))
    = (inr (filter (fun k => negb (k =? src)) leaves), quiet (store w1)).
Proof.
  intros H.
  apply AddEdge_inv in H as [[_ [e He]] | [_ [Hw1 _]]]; [discriminate|].
  do 2 eexists. split; [apply GetRoots_quiet|]. split; [apply GetLeaves_quiet|].
  rewrite GetRoots_quiet, GetLeaves_quiet, Hw1. simpl.
  rewrite <- !filter_andb. split; f_equal; f_equal; apply filter_ext; intros k.
  - unfold inbound. rewrite filter_app, map_app. simpl.
    rewrite mkID_eqb, (String.eqb_sym dst k).
    destruct (map efrom (filter _ (edocs (store w)))); destruct (k =? dst); reflexivity.
  - unfold outbound. rewrite filter_app, map_app. simpl.
    rewrite mkID_eqb, (String.eqb_sym src k).
    destruct (map eto (filter _ (edocs (store w)))); destruct (k =? src); reflexivity.
Qed.

Lemma roots_leaves_after_AddEdge_witness :
  AddEdge dag0 "A" "B" (quiet abc) = (inr tt, quiet (with_edge dag0 "A" "B" abc)) /\
  GetRoots dag0 (quiet abc) = (inr ["A"; "B"; "C"], quiet abc) /\
  GetRoots dag0 (quiet (with_edge dag0 "A" "B" abc))
  = (inr ["A"; "C"], quiet (with_edge dag0 "A" "B" abc)) /\
  GetLeaves dag0 (quiet (with_edge dag0 "A" "B" abc))
  = (inr ["B"; "C"], quiet (with_edge dag0 "A" "B" abc)).
Proof.
  assert (H : AddEdge dag0 "A" "B" (quiet abc)
              = (inr tt, quiet (with_edge dag0 "A" "B" abc)))
    by (vm_compute; reflexivity).
  destruct (@roots_leaves_after_AddEdge dag0 "A" "B" _ _ H)
    as [roots [leaves [H1 [H2 [H3 H4]]]]].
  assert (Hr : roots = ["A"; "B"; "C"]) by (vm_compute in H1; inversion H1; reflexivity).
  assert (Hl : leaves = ["A"; "B"; "C"]) by (vm_compute in H2; inversion H2; reflexivity).
  subst roots leaves.
  split; [exact H|]. split; [exact H1|]. split; [exact H3 | exact H4].
Defined.

(** ** The root walker and GetRoots *)

Lemma roots_loop_prefix : forall fuel c signals w,
  exists done rest,
    c = done ++ rest /\ sent_roots (fst (roots_loop fuel c signals w)) = map Key done.
Proof.
  induction fuel as [|fuel IH]; intros c signals w.
  - exists [], c. auto.
  - cbn [roots_loop].
    destruct (cursor_ReadDocument c w) as [[e|[[m|] c']] w1] eqn:Hr.
    + destruct (IH c signals w1) as [done [rest [Hc Hs]]].
      destruct (roots_loop fuel c signals w1) as [evs w2]. exists done, rest. auto.
    + apply cursor_ReadDocument_inv in Hr as [_ Hx]. specialize (Hx _ eq_refl).
      destruct c as [|m0 c0]; inversion Hx; subst m0 c0.
      destruct signals as [|[|] signals].
      * destruct (IH c' [] w1) as [done [rest [Hc Hs]]]. cbn [tl].
        destruct (roots_loop fuel c' [] w1) as [evs w2].
        exists (m :: done), rest. simpl in *. split; congruence.
      * exists [], (m :: c'). auto.
      * destruct (IH c' signals w1) as [done [rest [Hc Hs]]]. cbn [tl].
        destruct (roots_loop fuel c' signals w1) as [evs w2].
        exists (m :: done), rest. simpl in *. split; congruence.
    + exists [], c. auto.
Qed.

Lemma roots_loop_all st : forall fuel c signals fs,
  List.length c + List.length fs < fuel ->
  existsb (fun b => b) signals = false ->
  sent_roots (fst (roots_loop fuel c signals {| store := st; faults := fs |})) = map Key c.
Proof.
  induction fuel as [|fuel IH]; intros c signals fs Hf Hs; [lia|].
  assert (Htl : existsb (fun b => b) (tl signals) = false).
  { destruct signals as [|b signals]; simpl in *; auto.
    apply orb_false_iff in Hs. tauto. }
  cbn [roots_loop]. destruct fs as [|[|] fs].
  - change {| store := st; faults := [] |} with (quiet st). rewrite read_quiet.
    destruct c as [|m c]; [reflexivity|].
    destruct signals as [|[|] signals]; [| simpl in Hs; discriminate |].
    + specialize (IH c [] [] ltac:(simpl in *; lia) eq_refl). cbn [tl].
      change {| store := st; faults := [] |} with (quiet st) in IH.
      destruct (roots_loop fuel c [] (quiet st)) as [evs w2]. simpl in *. congruence.
    + specialize (IH c signals [] ltac:(simpl in *; lia) Htl). cbn [tl].
      change {| store := st; faults := [] |} with (quiet st) in IH.
      destruct (roots_loop fuel c signals (quiet st)) as [evs w2]. simpl in *. congruence.
  - rewrite read_fail.
    specialize (IH c signals fs ltac:(simpl in *; lia) Hs).
    destruct (roots_loop fuel c signals _) as [evs w2]. simpl in *. congruence.
  - rewrite read_ok. destruct c as [|m c]; [reflexivity|].
    destruct signals as [|[|] signals]; [| simpl in Hs; discriminate |].
    + specialize (IH c [] fs ltac:(simpl in *; lia) eq_refl). cbn [tl].
      destruct (roots_loop fuel c [] _) as [evs w2]. simpl in *. congruence.
    + specialize (IH c signals fs ltac:(simpl in *; lia) Htl). cbn [tl].
      destruct (roots_loop fuel c signals _) as [evs w2]. simpl in *. congruence.
Qed.

Lemma sent_roots_closed evs : sent_roots (evs ++ [CloseRoots; CloseErrors]) = sent_roots evs.
Proof.
  induction evs as [|[e|k| |] evs IH]; simpl; auto. f_equal. auto.
Qed.

(** X14.  The root walker and [GetRoots] agree: whatever the store failures
    and the cancellation signals, the identifiers the walker sends are a
    prefix of the list [GetRoots] returns, in the same order; they are the
    whole list when the query starts and no cancellation is ever
    signalled. *)
Theorem GetRootsWalker_sends_GetRoots d st fs signals :
  exists roots rest,
    GetRoots d (quiet st) = (inr roots, quiet st) /\
    roots = sent_roots (fst (GetRootsWalker d signals {| store := st; faults := fs |}))
            ++ rest /\
    (hd false fs = false -> existsb (fun b => b) signals = false -> rest = []).
Proof.
  exists (map Key (eval_query d st QRoots)).
  assert (HG : GetRoots d (quiet st) = (inr (map Key (eval_query d st QRoots)), quiet st)).
  { unfold GetRoots, getRoots.
    erewrite bind_ok; [|erewrite bind_ok by apply db_Query_quiet; apply collect_loop_quiet].
    reflexivity. }
  unfold GetRootsWalker, db_Query, bind, get_store, ret.
  destruct fs as [|[|] fs]; cbn [driver_call faults store hd].
  - destruct (roots_loop_prefix (S (List.length (eval_query d st QRoots) + 0))
                (eval_query d st QRoots) signals {| store := st; faults := [] |})
      as [done [rest [Hc Hs]]].
    pose proof (@roots_loop_all st (S (List.length (eval_query d st QRoots) + 0))
                  (eval_query d st QRoots) signals [] ltac:(simpl; lia)) as Hall.
    cbn [List.length] in *.
    destruct (roots_loop _ (eval_query d st QRoots) signals _) as [evs w2].
    cbn [fst] in *. rewrite sent_roots_closed.
    exists (map Key rest). split; [exact HG|]. split.
    + rewrite Hs, <- map_app, <- Hc. reflexivity.
    + intros _ Hsig. specialize (Hall Hsig). rewrite Hs in Hall.
      rewrite Hc, map_app in Hall.
      apply (f_equal (@List.length string)) in Hall.
      rewrite length_app in Hall. destruct rest; simpl in *; [reflexivity | lia].
  - exists (map Key (eval_query d st QRoots)). split; [exact HG|]. split; [reflexivity|].
    discriminate.
  - destruct (roots_loop_prefix (S (List.length (eval_query d st QRoots) + List.length fs))
                (eval_query d st QRoots) signals {| store := st; faults := fs |})
      as [done [rest [Hc Hs]]].
    pose proof (@roots_loop_all st (S (List.length (eval_query d st QRoots) + List.length fs))
                  (eval_query d st QRoots) signals fs ltac:(lia)) as Hall.
    destruct (roots_loop _ (eval_query d st QRoots) signals _) as [evs w2].
    cbn [fst] in *. rewrite sent_roots_closed.
    exists (map Key rest). split; [exact HG|]. split.
    + rewrite Hs, <- map_app, <- Hc. reflexivity.
    + intros _ Hsig. specialize (Hall Hsig). rewrite Hs in Hall.
      rewrite Hc, map_app in Hall.
      apply (f_equal (@List.length string)) in Hall.
      rewrite length_app in Hall. destruct rest; simpl in *; [reflexivity | lia].
Qed.

Lemma roots_loop_cancel st more : forall c n fuel,
  List.length c < fuel ->
  roots_loop fuel c (repeat false n ++ true :: more) (quiet st)
  = (map (fun m => SendRoot (Key m)) (firstn n c), quiet st).
Proof.
  induction c as [|m c IH]; intros n [|fuel] Hf; simpl in Hf; try lia.
  - cbn [roots_loop]. rewrite read_quiet. rewrite firstn_nil. reflexivity.
  - cbn [roots_loop]. rewrite read_quiet. destruct n as [|n].
    + reflexivity.
    + cbn [repeat app tl firstn map]. rewrite IH by lia. reflexivity.
Qed.

(** X15.  Cancellation: without store failure, when the signal is first
    found waiting at the [n+1]-th root, the walker has sent the first [n]
    identifiers of [GetRoots], sends nothing more, no error, and closes both
    channels; a signal that comes after the last root changes nothing. *)
Theorem GetRootsWalker_cancel d st roots n more :
  GetRoots d (quiet st) = (inr roots, quiet st) ->
  GetRootsWalker d (repeat false n ++ true :: more) (quiet st)
  = (map SendRoot (firstn n roots) ++ [CloseRoots; CloseErrors], quiet st).
Proof.
  intros HG.
  assert (Hr : roots = map Key (eval_query d st QRoots)).
  { unfold GetRoots, getRoots in HG.
    erewrite bind_ok in HG;
      [|erewrite bind_ok by apply db_Query_quiet; apply collect_loop_quiet].
    inversion HG. reflexivity. }
  unfold GetRootsWalker. rewrite db_Query_quiet. cbn [faults quiet List.length].
  rewrite roots_loop_cancel by lia.
  rewrite Hr, firstn_map, map_map. reflexivity.
Qed.

Lemma GetRootsWalker_cancel_witness :
  GetRoots dag0 (quiet abc) = (inr ["A"; "B"; "C"], quiet abc) /\
  GetRootsWalker dag0 [false; true] (quiet abc)
  = ([SendRoot "A"; CloseRoots; CloseErrors], quiet abc) /\
  GetRootsWalker dag0 [false; false; false; true] (quiet abc)
  = ([SendRoot "A"; SendRoot "B"; SendRoot "C"; CloseRoots; CloseErrors], quiet abc).
Proof.
  assert (H : GetRoots dag0 (quiet abc) = (inr ["A"; "B"; "C"], quiet abc))
    by (vm_compute; reflexivity).
  split; [exact H|]. split.
  - exact (@GetRootsWalker_cancel dag0 abc _ 1 [] H).
  - exact (@GetRootsWalker_cancel dag0 abc _ 3 [] H).
Defined.

(** ** The visitor *)




Lemma traverse_inbound_root E opts from :
  (forall u, ~ edge E u from) -> traverse_inbound E opts from = [].
Proof.
  intros Hroot.
  assert (Hin : inbound E from = []).
  { destruct (inbound E from) as [|u l] eqn:Hi; auto.
    exfalso. apply (Hroot u). apply In_inbound. rewrite Hi. simpl; auto. }
  assert (Hf : filter (fun e => eto e =? from) E = []).
  { unfold inbound in Hin. apply map_eq_nil in Hin. exact Hin. }
  destruct opts; unfold traverse_inbound.
  - destruct maxDepth as [|n]; [reflexivity|].
    cbn [bfs_walk expand]. rewrite Hin. cbn [relax].
    destruct n; reflexivity.
  - destruct maxDepth as [|n]; [reflexivity|].
    cbn [dfs_inbound]. rewrite Hf. reflexivity.
Qed.

(** X17.  A root has no ancestors: for a vertex that [GetRoots] returns,
    and without store failure, [WalkAncestors] returns no error and never
    calls the visitor, in either order. *)
Theorem WalkAncestors_from_root d st roots key T (fn : WalkFunc T) dfs t :
  GetRoots d (quiet st) = (inr roots, quiet st) -> In key roots ->
  WalkAncestors d key fn dfs (quiet st, t) = (inr tt, (quiet st, t)).
Proof.
  intros HG Hin. rewrite GetRoots_quiet in HG. inversion HG; subst roots. clear HG.
  apply filter_In in Hin as [Hk Hroot].
  rewrite nil_test in Hroot.
  unfold WalkAncestors.
  erewrite bind_ok by (apply liftW_quiet, getVertex_quiet_In; auto).
  erewrite bind_ok by (apply liftW_quiet, db_Query_quiet).
  unfold eval_query. rewrite traverse_inbound_root; [reflexivity|].
  intros u Hu. apply (Hroot u). apply In_inbound. exact Hu.
Qed.

Lemma WalkAncestors_from_root_witness :
  GetRoots dag0 (quiet diamond) = (inr ["A"], quiet diamond) /\
  WalkAncestors dag0 "A" (logging visit_ok) true (quiet diamond, (tt, []))
  = (inr tt, (quiet diamond, (tt, []))).
Proof.
  assert (H : GetRoots dag0 (quiet diamond) = (inr ["A"], quiet diamond))
    by (vm_compute; reflexivity).
  split; [exact H|].
  apply (@WalkAncestors_from_root dag0 diamond ["A"] "A" _ (logging visit_ok) true
           (tt, []) H).
  simpl. auto.
Defined.

(** ** What the traversal reaches *)

Lemma nwalk_cons nbrs n u v w :
  In v (nbrs u) -> nwalk nbrs n v w -> nwalk nbrs (S n) u w.
Proof.
  intros Huv. induction 1 as [v | n v x y Hw IH Hxy].
  - apply nwalk_snoc with (v := u); auto. constructor.
  - apply nwalk_snoc with (v := x); auto.
Qed.

Lemma walk_nwalk_inbound E n u v : walk E n u v -> nwalk (inbound E) n v u.
Proof.
  induction 1 as [v | n u v w Hw IH Hvw].
  - constructor.
  - eapply nwalk_cons; eauto. apply In_inbound; auto.
Qed.

Lemma bfs_walk_end nbrs src : forall depth k F pred,
  Inv nbrs src k F pred ->
  exists k' F',
    Inv nbrs src k' F' (bfs_walk nbrs src depth F pred) /\ (F' = [] \/ k' = k + depth).
Proof.
  induction depth as [|depth IH]; intros k F pred I; simpl.
  - exists k, F. split; [auto | right; lia].
  - destruct F as [|f F].
    + exists k, []. auto.
    + destruct (expand nbrs src (f :: F) pred []) as [pred1 next] eqn:He.
      destruct (Inv_step I He) as [I' _].
      destruct (IH _ _ _ I') as [k' [F' [HI Hk]]].
      exists k', F'. split; [auto|]. destruct Hk; [auto | right; lia].
Qed.

Lemma bfs_walk_complete nbrs src depth n v :
  nwalk nbrs n src v -> n <= depth -> v <> src ->
  In v (map fst (bfs_walk nbrs src depth [src] [])).
Proof.
  intros Hw Hn Hne.
  destruct (bfs_walk_end depth (Inv_init nbrs src)) as [k' [F' [I [-> | ->]]]].
  - assert (Hv : visited src (bfs_walk nbrs src depth [src] []) v = true).
    { eapply closed_reach; [exact I | exact Hw |]. apply visited_spec; auto. }
    apply visited_spec in Hv as [Hv | Hv]; tauto.
  - assert (Hv : visited src (bfs_walk nbrs src depth [src] []) v = true).
    { eapply inv_near; [exact I | | exact Hw]. lia. }
    apply visited_spec in Hv as [Hv | Hv]; tauto.
Qed.

Lemma bfs_walk_not_start nbrs src depth :
  ~ In src (map fst (bfs_walk nbrs src depth [src] [])).
Proof.
  destruct (bfs_walk_end depth (Inv_init nbrs src)) as [k' [F' [I _]]].
  eapply inv_nosrc; eauto.
Qed.

Lemma traverse_bfs_exact E from u :
  In u (traverse_inbound E BfsGlobal from) <->
  u <> from /\ exists n, 1 <= n <= maxDepth /\ walk E n u from.
Proof.
  split.
  - intros H. split.
    + intros ->. unfold traverse_inbound in H. apply in_rev in H.
      eapply bfs_walk_not_start; eauto.
    + eapply traverse_inbound_sound; eauto.
  - intros [Hne [n [Hn Hw]]]. unfold traverse_inbound. apply in_rev. rewrite rev_involutive.
    eapply bfs_walk_complete; [apply walk_nwalk_inbound; eauto | lia | auto].
Qed.

Lemma dfs_inbound_complete E :
  acyclic E -> unique_keys E ->
  forall depth v used u n,
    walk E n u v -> 1 <= n <= depth ->
    (forall e, In e E -> In (ekey e) used -> reach E v (efrom e)) ->
    In u (dfs_inbound E depth v used).
Proof.
  intros Ha Hu. induction depth as [|depth IH]; intros v used u n Hw Hn Hused; [lia|].
  destruct Hw as [v | n u x v Hw [e [Hin [Hf Ht]]]]; [lia|].
  cbn [dfs_inbound]. apply in_flat_map. exists e. split.
  { apply filter_In. split; auto. apply String.eqb_eq; auto. }
  destruct (existsb (String.eqb (ekey e)) used) eqn:Hex.
  { exfalso. apply existsb_eqb_In in Hex.
    destruct (Hused e Hin Hex) as [m Hm].
    apply (Ha v m). eapply walk_snoc; [exact Hm|]. exists e. auto. }
  subst x. destruct n as [|n].
  - inversion Hw; subst. left; auto.
  - right. apply (IH (efrom e) (ekey e :: used) u (S n)); [auto | lia |].
    intros e' Hin' [Hk | Hk].
    + assert (e' = e) by (apply Hu; auto). subst e'. exists 0. constructor.
    + destruct (Hused e' Hin' Hk) as [m Hm]. exists (S m).
      eapply walk_cons; [|exact Hm]. exists e. subst v. auto.
Qed.

Lemma traverse_dfs_exact E from u :
  acyclic E -> unique_keys E ->
  (In u (traverse_inbound E DfsNone from) <->
   exists n, 1 <= n <= maxDepth /\ walk E n u from).
Proof.
  intros Ha Hu. split.
  - apply traverse_inbound_sound.
  - intros [n [Hn Hw]]. unfold traverse_inbound.
    eapply dfs_inbound_complete; eauto. intros e _ [].
Qed.

Lemma distinct_from_complete l : forall seen x,
  In x l -> In x seen \/ In x (distinct_from seen l).
Proof.
  induction l as [|a l IH]; simpl; intros seen x Hx; [tauto|].
  destruct (existsb _ seen) eqn:He.
  - destruct Hx as [<- | Hx]; [|apply IH; auto].
    left. apply existsb_exists in He as [y [Hy Hm]].
    destruct a, y; try discriminate; auto.
    apply String.eqb_eq in Hm. subst; auto.
  - destruct Hx as [<- | Hx]; [right; left; auto|].
    destruct (IH (a :: seen) x Hx) as [[<- | H] | H]; simpl; auto.
Qed.

Lemma distinct_complete l x : In x l -> In x (distinct l).
Proof.
  intros H. destruct (distinct_from_complete l [] x H) as [[] | H']; auto.
Qed.

Lemma walk_first_edge E n u v :
  walk E n u v -> n <> 0 -> exists e, In e E /\ efrom e = u.
Proof.
  induction 1 as [v | n u v w Hw IH [e [Hin [Hf Ht]]]]; intros Hn; [tauto|].
  destruct n as [|n]; [|apply IH; lia].
  inversion Hw; subst. eauto.
Qed.

Lemma ancestor_id_stored d st opts from id :
  well_formed d st ->
  In id (traverse_inbound (edocs st) opts from) ->
  exists k, In k (vdocs st) /\ id = mkID (vertices d) k /\ vertex_doc d st id = Some k.
Proof.
  intros Hwf Hin. apply traverse_inbound_sound in Hin as [n [Hn Hw]].
  apply walk_first_edge in Hw as [e [He Hf]]; [|lia].
  destruct (Hwf e He) as [[k [Hk Hid]] _]. exists k. rewrite <- Hf, Hid.
  split; [auto|]. split; [auto|]. apply vertex_doc_id; auto.
Qed.

Lemma ancestors_log_wf d st from opts k :
  well_formed d st ->
  (In k (map Key (eval_query d st (QAncestors from opts))) <->
   In (mkID (vertices d) k) (traverse_inbound (edocs st) opts from)).
Proof.
  intros Hwf. unfold eval_query. rewrite map_map, in_map_iff. split.
  - intros [doc [Hk Hdoc]].
    apply distinct_In, in_map_iff in Hdoc as [id [Hid Hin]].
    destruct (ancestor_id_stored opts from id Hwf Hin) as [k0 [_ [Hid0 Hv]]].
    rewrite Hv in Hid. subst doc. simpl in Hk. subst k0. rewrite <- Hid0. auto.
  - intros Hin.
    destruct (ancestor_id_stored opts from _ Hwf Hin) as [k0 [_ [Hid0 Hv]]].
    apply mkID_inj in Hid0. subst k0.
    exists (Some k). split; [reflexivity|].
    apply distinct_complete, in_map_iff. eauto.
Qed.

Lemma ancestors_keys_NoDup_wf d st from opts :
  well_formed d st -> NoDup (map Key (eval_query d st (QAncestors from opts))).
Proof.
  intros Hwf. unfold eval_query. rewrite map_map.
  apply NoDup_map_inj_in; [|apply distinct_NoDup].
  assert (Hsome : forall x,
            In x (distinct (map (vertex_doc d st) (traverse_inbound (edocs st) opts from))) ->
            exists k, x = Some k).
  { intros x Hx. apply distinct_In, in_map_iff in Hx as [id [Hid Hin]].
    destruct (ancestor_id_stored opts from id Hwf Hin) as [k0 [_ [_ Hv]]].
    exists k0. congruence. }
  intros x y Hx Hy Heq.
  destruct (Hsome x Hx) as [a ->]. destruct (Hsome y Hy) as [b ->].
  simpl in Heq. congruence.
Qed.

(** X18.  Breadth-first walks visit each ancestor once: in a store whose
    edges join stored vertices, without store failure and with a visitor
    that does not fail, [WalkAncestors] in breadth-first order returns no
    error and calls the visitor exactly once for every vertex other than
    the start from which the start is reachable in 1 to 10000 hops, and for
    no other key. *)
Theorem WalkAncestors_bfs_exact d st key T (fn : WalkFunc T) t :
  well_formed d st -> In key (vdocs st) -> (forall k s, fst (fn k s) = None) ->
  exists t' log,
    WalkAncestors d key (logging fn) false (quiet st, (t, []))
    = (inr tt, (quiet st, (t', log))) /\
    NoDup log /\
    forall k, In k log <->
      k <> key /\
      exists n, 1 <= n <= maxDepth /\
                walk (edocs st) n (mkID (vertices d) k) (mkID (vertices d) key).
Proof.
  intros Hwf Hk Hfn.
  destruct (@WalkAncestors_quiet d key T fn false st t [] Hk Hfn) as [t' H].
  exists t'. eexists. split; [exact H|]. cbn [app]. split.
  - apply ancestors_keys_NoDup_wf; auto.
  - intros k. rewrite ancestors_log_wf by auto. rewrite traverse_bfs_exact.
    split; intros [Hne Hw]; split; auto.
    + intros ->. tauto.
    + intros Heq. apply mkID_inj in Heq. tauto.
Qed.

Lemma WalkAncestors_bfs_exact_witness :
  well_formed dag0 diamond /\ In "D" (vdocs diamond) /\
  exists t' log,
    WalkAncestors dag0 "D" (logging visit_ok) false (quiet diamond, (tt, []))
    = (inr tt, (quiet diamond, (t', log))) /\
    NoDup log /\
    forall k, In k log <->
      k <> "D" /\
      exists n, 1 <= n <= maxDepth /\
                walk (edocs diamond) n (mkID (vertices dag0) k) (mkID (vertices dag0) "D").
Proof.
  assert (Hk : In "D" (vdocs diamond)) by (vm_compute; auto 6).
  split; [exact diamond_well_formed|]. split; [exact Hk|].
  apply (@WalkAncestors_bfs_exact dag0 diamond "D" unit visit_ok tt diamond_well_formed Hk).
  intros k s. reflexivity.
Defined.

(** *** Stores built by AddEdge *)

Lemma gen_key_inj n m : gen_key n = gen_key m -> n = m.
Proof.
  unfold gen_key. intros H.
  apply Unsigned.to_uint_inj.
  assert (Hs : Some (Nat.to_uint n) = Some (Nat.to_uint m)).
  { rewrite <- !NilEmpty.usu. rewrite H. reflexivity. }
  inversion Hs. reflexivity.
Qed.

Lemma built_store d calls st0 :
  edocs st0 = [] ->
  well_formed d (add_edges d calls st0) /\
  acyclic (edocs (add_edges d calls st0)) /\
  unique_keys (edocs (add_edges d calls st0)).
Proof.
  intros H0. split; [|split].
  - apply add_edges_well_formed. intros e He. rewrite H0 in He. destruct He.
  - apply (add_edges_ind (fun st' => acyclic (edocs st'))).
    + intros src dst st' Ha _ _ _ Hno. simpl. apply acyclic_add; auto.
    + rewrite H0. apply acyclic_nil.
  - assert (HP : forall i e, nth_error (edocs (add_edges d calls st0)) i = Some e ->
                             ekey e = gen_key i).
    { apply (add_edges_ind (fun st' => forall i e, nth_error (edocs st') i = Some e ->
                                                   ekey e = gen_key i)).
      - intros src dst st' HP _ _ _ _ i e Hn. simpl in Hn.
        destruct (Nat.lt_ge_cases i (List.length (edocs st'))) as [Hlt | Hge].
        + rewrite nth_error_app1 in Hn by auto. auto.
        + rewrite nth_error_app2 in Hn by auto.
          destruct (i - List.length (edocs st')) as [|j] eqn:Hj; simpl in Hn.
          * inversion Hn; subst. simpl. f_equal. lia.
          * destruct j; discriminate.
      - rewrite H0. intros [|i] e Hn; discriminate. }
    intros e e' Hin Hin' Hk.
    apply In_nth_error in Hin as [i Hi]. apply In_nth_error in Hin' as [j Hj].
    rewrite (HP _ _ Hi), (HP _ _ Hj) in Hk. apply gen_key_inj in Hk. subst j.
    congruence.
Qed.

(** X19.  The order changes the order only: in a store built by [AddEdge]
    calls from a store without edges, without store failure and with a
    visitor that does not fail, the depth-first and the breadth-first walk
    from a stored vertex both return no error, and the keys the depth-first
    walk visits are a permutation of those the breadth-first walk visits:
    each vertex from which the start is reachable in 1 to 10000 hops,
    once. *)
Theorem WalkAncestors_orders_agree d st0 calls key T (fn : WalkFunc T) t :
  edocs st0 = [] -> In key (vdocs st0) -> (forall k s, fst (fn k s) = None) ->
  exists t1 log1 t2 log2,
    WalkAncestors d key (logging fn) false (quiet (add_edges d calls st0), (t, []))
    = (inr tt, (quiet (add_edges d calls st0), (t1, log1))) /\
    WalkAncestors d key (logging fn) true (quiet (add_edges d calls st0), (t, []))
    = (inr tt, (quiet (add_edges d calls st0), (t2, log2))) /\
    Permutation log1 log2 /\
    forall k, In k log2 <->
      exists n, 1 <= n <= maxDepth /\
                walk (edocs (add_edges d calls st0)) n
                     (mkID (vertices d) k) (mkID (vertices d) key).
Proof.
  intros H0 Hk Hfn.
  destruct (@built_store d calls st0 H0) as [Hwf [Ha Hu]].
  rewrite <- (add_edges_vdocs d calls st0) in Hk.
  set (st := add_edges d calls st0) in *.
  destruct (@WalkAncestors_quiet d key T fn false st t [] Hk Hfn) as [t1 H1].
  destruct (@WalkAncestors_quiet d key T fn true st t [] Hk Hfn) as [t2 H2].
  cbn [app] in H1, H2.
  exists t1. eexists. exists t2. eexists. split; [exact H1|]. split; [exact H2|].
  assert (Hd : forall k, In k (map Key (eval_query d st (QAncestors (mkID (vertices d) key)
                                                        DfsNone))) <->
      exists n, 1 <= n <= maxDepth /\
                walk (edocs st) n (mkID (vertices d) k) (mkID (vertices d) key)).
  { intros k. rewrite ancestors_log_wf by auto. apply traverse_dfs_exact; auto. }
  split; [|exact Hd].
  apply NoDup_Permutation; try (apply ancestors_keys_NoDup_wf; auto).
  intros k. rewrite Hd, ancestors_log_wf by auto. rewrite traverse_bfs_exact.
  split.
  - intros [_ Hw]. exact Hw.
  - intros [n [Hn Hw]]. split; eauto.
    intros Heq. rewrite Heq in Hw. destruct n as [|n]; [lia|]. eapply Ha; eauto.
Qed.

Lemma WalkAncestors_orders_agree_witness :
  WalkAncestors dag0 "D" (logging visit_ok) false (quiet diamond, (tt, []))
  = (inr tt, (quiet diamond, (tt, ["B"; "C"; "A"]))) /\
  WalkAncestors dag0 "D" (logging visit_ok) true (quiet diamond, (tt, []))
  = (inr tt, (quiet diamond, (tt, ["B"; "A"; "C"]))) /\
  Permutation ["B"; "C"; "A"] ["B"; "A"; "C"].
Proof.
  assert (H1 : WalkAncestors dag0 "D" (logging visit_ok) false (quiet diamond, (tt, []))
               = (inr tt, (quiet diamond, (tt, ["B"; "C"; "A"]))))
    by (vm_compute; reflexivity).
  assert (H2 : WalkAncestors dag0 "D" (logging visit_ok) true (quiet diamond, (tt, []))
               = (inr tt, (quiet diamond, (tt, ["B"; "A"; "C"]))))
    by (vm_compute; reflexivity).
  split; [exact H1|]. split; [exact H2|].
  destruct (@WalkAncestors_orders_agree dag0
              {| vdocs := ["A"; "B"; "C"; "D"]; edocs := [] |}
              [("A", "B", []); ("B", "D", []); ("A", "C", []); ("C", "D", [])]
              "D" unit visit_ok tt eq_refl)
    as [t1 [log1 [t2 [log2 [E1 [E2 [HP _]]]]]]].
  - simpl. auto 6.
  - intros k s. reflexivity.
  - change (add_edges dag0 _ _) with diamond in E1, E2.
    rewrite H1 in E1. rewrite H2 in E2.
    inversion E1; subst log1. inversion E2; subst log2. exact HP.
Defined.

(** ** Every vertex lies between a root and a leaf *)

Section Source.
Variable V : list string.
Variables par anc : string -> string -> Prop.
Hypothesis par_cases :
  forall v, In v V -> (forall u, ~ par u v) \/ exists u, In u V /\ par u v.
Hypothesis anc_step : forall u v, par u v -> anc u v.
Hypothesis anc_left : forall u v x, par u v -> anc v x -> anc u x.
Hypothesis anc_right : forall u v x, anc u v -> par v x -> anc u x.
Hypothesis anc_irrefl : forall v, ~ anc v v.

Lemma source_exists : forall fuel v seen,
  In v V -> NoDup seen -> incl seen V -> (forall s, In s seen -> anc v s) ->
  List.length V <= fuel + List.length seen ->
  exists r, In r V /\ (r = v \/ anc r v) /\ forall u, ~ par u r.
Proof.
  induction fuel as [|fuel IH]; intros v seen Hv Hnd Hincl Hanc Hlen.
  - exfalso.
    assert (Hnd' : NoDup (v :: seen)).
    { constructor; auto. intros Hin. apply (@anc_irrefl v (Hanc v Hin)). }
    assert (Hincl' : incl (v :: seen) V).
    { intros x [<- | Hx]; auto. }
    pose proof (NoDup_incl_length Hnd' Hincl') as Hl. simpl in *. lia.
  - destruct (@par_cases v Hv) as [Hroot | [u [Hu Hp]]].
    + exists v. auto.
    + destruct (IH u (v :: seen)) as [r [Hr [Hrv Hroot]]]; auto.
      * constructor; auto. intros Hin. apply (@anc_irrefl v (Hanc v Hin)).
      * intros x [<- | Hx]; auto.
      * intros s [<- | Hs]; [auto|]. eapply anc_left; eauto.
      * simpl. lia.
      * exists r. split; [auto|]. split; [|auto]. right.
        destruct Hrv as [-> | Hrv]; [auto|]. eapply anc_right; eauto.
Qed.

End Source.

(** X20.  Every vertex lies between a root and a leaf: in an acyclic store
    whose edges join stored vertices, without store failure, for every
    stored vertex [GetRoots] returns a vertex from which it is reachable and
    [GetLeaves] returns a vertex reachable from it; so neither result is
    empty while a vertex is stored. *)
Theorem vertex_between_root_and_leaf d st key :
  well_formed d st -> acyclic (edocs st) -> In key (vdocs st) ->
  exists roots leaves r l,
    GetRoots d (quiet st) = (inr roots, quiet st) /\
    GetLeaves d (quiet st) = (inr leaves, quiet st) /\
    In r roots /\ In l leaves /\
    reach (edocs st) (mkID (vertices d) r) (mkID (vertices d) key) /\
    reach (edocs st) (mkID (vertices d) key) (mkID (vertices d) l).
Proof.
  intros Hwf Ha Hk.
  set (E := edocs st). set (V := map (mkID (vertices d)) (vdocs st)).
  assert (HV : In (mkID (vertices d) key) V) by (apply in_map; auto).
  destruct (@source_exists V (edge E) (fun u v => exists n, walk E (S n) u v))
    with (fuel := List.length V) (v := mkID (vertices d) key) (seen := @nil string)
    as [r [Hr [Hrv Hroot]]]; auto.
  { intros v Hv. destruct (inbound E v) as [|u us] eqn:Hin.
    - left. intros u Hu. apply In_inbound in Hu. rewrite Hin in Hu. destruct Hu.
    - right. exists u. assert (Hu : edge E u v) by (apply In_inbound; rewrite Hin; left; auto).
      split; [|auto]. destruct Hu as [e [He [Hf _]]].
      destruct (Hwf e He) as [[k [Hkv Hid]] _]. subst u. rewrite Hid. apply in_map; auto. }
  { intros u v Hp. exists 0. eapply walk_snoc; [constructor | auto]. }
  { intros u v x Hp [n Hw]. exists (S n). eapply walk_cons; eauto. }
  { intros u v x [n Hw] Hp. exists (S n). eapply walk_snoc; eauto. }
  { intros v [n Hw]. eapply Ha; eauto. }
  { constructor. }
  { intros x []. }
  { intros s []. }
  { simpl. lia. }
  destruct (@source_exists V (fun u v => edge E v u) (fun u v => exists n, walk E (S n) v u))
    with (fuel := List.length V) (v := mkID (vertices d) key) (seen := @nil string)
    as [l [Hl [Hlv Hleaf]]]; auto.
  { intros v Hv. destruct (outbound E v) as [|u us] eqn:Hout.
    - left. intros u Hu. apply In_outbound in Hu. rewrite Hout in Hu. destruct Hu.
    - right. exists u. assert (Hu : edge E v u) by (apply In_outbound; rewrite Hout; left; auto).
      split; [|auto]. destruct Hu as [e [He [_ Ht]]].
      destruct (Hwf e He) as [_ [k [Hkv Hid]]]. subst u. rewrite Hid. apply in_map; auto. }
  { intros u v Hp. exists 0. eapply walk_snoc; [constructor | auto]. }
  { intros u v x Hp [n Hw]. exists (S n). eapply walk_snoc; eauto. }
  { intros u v x [n Hw] Hp. exists (S n). eapply walk_cons; eauto. }
  { intros v [n Hw]. eapply Ha; eauto. }
  { constructor. }
  { intros x []. }
  { intros s []. }
  { simpl. lia. }
  apply in_map_iff in Hr as [kr [<- Hkr]]. apply in_map_iff in Hl as [kl [<- Hkl]].
  do 2 eexists. exists kr, kl.
  split; [apply GetRoots_quiet|]. split; [apply GetLeaves_quiet|].
  split; [|split; [|split]].
  - apply filter_In. split; [auto|]. apply nil_test. intros u Hu.
    apply (Hroot u). apply In_inbound; auto.
  - apply filter_In. split; [auto|]. apply nil_test. intros u Hu.
    apply (Hleaf u). apply In_outbound; auto.
  - destruct Hrv as [-> | [n Hw]]; [exists 0; constructor | exists (S n); auto].
  - destruct Hlv as [-> | [n Hw]]; [exists 0; constructor | exists (S n); auto].
Qed.

Lemma vertex_between_root_and_leaf_witness :
  well_formed dag0 diamond /\ acyclic (edocs diamond) /\ In "B" (vdocs diamond) /\
  exists roots leaves r l,
    GetRoots dag0 (quiet diamond) = (inr roots, quiet diamond) /\
    GetLeaves dag0 (quiet diamond) = (inr leaves, quiet diamond) /\
    In r roots /\ In l leaves /\
    reach (edocs diamond) (mkID (vertices dag0) r) (mkID (vertices dag0) "B") /\
    reach (edocs diamond) (mkID (vertices dag0) "B") (mkID (vertices dag0) l).
Proof.
  assert (Ha : acyclic (edocs diamond)).
  { apply (@built_store dag0
             [("A", "B", []); ("B", "D", []); ("A", "C", []); ("C", "D", [])]
             {| vdocs := ["A"; "B"; "C"; "D"]; edocs := [] |} eq_refl). }
  assert (Hk : In "B" (vdocs diamond)) by (vm_compute; auto 6).
  split; [exact diamond_well_formed|]. split; [exact Ha|]. split; [exact Hk|].
  exact (@vertex_between_root_and_leaf dag0 diamond "B" diamond_well_formed Ha Hk).
Defined.
